(** * hash_difficulty.py: a bounded proof-of-work scan

    A shallow embedding of [src/python/hash_difficulty.py].  The script
    hashes the strings "jesse0" .. "jesse63" with SHA-256, keeps the
    (nonce, hexdigest) pairs whose digest, read as a base-16 integer, is
    below a fixed 256-bit target, and prints them.

    Python values are modelled as follows:
    - [int] is [Z];
    - [str] is a list of Unicode code points ([pystr], code points as [Z]);
    - [bytes] is a list of [Z], each in [0, 256);
    - a raised exception is the [Err] branch of [result];
    - standard output is the list of the texts written by the calls of
      [print] that succeeded, threaded as state; the encoding of standard
      output is a parameter ([codec]), and [print] raises when it cannot
      write a text.  [stdout_text] is the stream of characters that results,
      each text followed by a newline, and [text_lines] its lines.

    The three constants of the script (the prefix, the target literal and
    the bound of [range]) are parameters of the embedded functions; the
    script itself is their instance [main], run with a given encoding of
    standard output. *)

From Stdlib Require Import String Ascii DecimalString DecimalPos DecimalZ.
From Stdlib Require Import ZArith List Lia Bool Sorted.
Import ListNotations.
Local Open Scope Z_scope.

(** ** Python values *)

Definition pystr := list Z.
Definition bytes := list Z.

Inductive exn : Type :=
| ValueError (literal : pystr)          (* int(): invalid literal, base 16 *)
| UnicodeEncodeError (code_point : Z).  (* str.encode: surrogate not allowed *)

Inductive result (A : Type) : Type :=
| Ok (a : A)
| Err (e : exn).
Arguments Ok {A} a.
Arguments Err {A} e.

Definition rbind {A B : Type} (r : result A) (k : A -> result B) : result B :=
  match r with
  | Ok a => k a
  | Err e => Err e
  end.

Declare Scope result_scope.
Delimit Scope result_scope with result.
Notation "x <- r ;; k" := (rbind r (fun x => k))
  (at level 61, r at next level, right associativity) : result_scope.

(** A string literal of ASCII characters, as code points. *)
Definition lit (s : string) : pystr :=
  map (fun a => Z.of_N (N_of_ascii a)) (list_ascii_of_string s).

(** ** SHA-256 (hashlib.sha256), after FIPS 180-4

    Words are 32-bit, held in [Z] with the wrap-around written out. *)
Module SHA256.

Definition w32 (x : Z) : Z := x mod 2 ^ 32.

Definition add32 (x y : Z) : Z := w32 (x + y).

Definition rotr (n x : Z) : Z :=
  Z.lor (Z.shiftr x n) (w32 (Z.shiftl x (32 - n))).

Definition not32 (x : Z) : Z := Z.lxor x 0xffffffff.

Definition Ch (x y z : Z) : Z := Z.lxor (Z.land x y) (Z.land (not32 x) z).

Definition Maj (x y z : Z) : Z :=
  Z.lxor (Z.lxor (Z.land x y) (Z.land x z)) (Z.land y z).

Definition Sigma0 (x : Z) : Z :=
  Z.lxor (Z.lxor (rotr 2 x) (rotr 13 x)) (rotr 22 x).

Definition Sigma1 (x : Z) : Z :=
  Z.lxor (Z.lxor (rotr 6 x) (rotr 11 x)) (rotr 25 x).

Definition sigma0 (x : Z) : Z :=
  Z.lxor (Z.lxor (rotr 7 x) (rotr 18 x)) (Z.shiftr x 3).

Definition sigma1 (x : Z) : Z :=
  Z.lxor (Z.lxor (rotr 17 x) (rotr 19 x)) (Z.shiftr x 10).

(** The constants are defined as the standard defines them: the first 32
    bits of the fractional parts of the cube roots (for [K]) and of the
    square roots (for [H0]) of the first prime numbers. *)
Definition is_prime (n : Z) : bool :=
  (1 <? n)
  && forallb (fun d => negb (n mod d =? 0))
             (map Z.of_nat (seq 2 (Z.to_nat n - 2))).

Definition primes : list Z :=
  filter is_prime (map Z.of_nat (seq 0 312)).

(** Integer cube root, one bit at a time from bit [bits - 1] down. *)
Fixpoint root3_bits (bits : nat) (n r : Z) : Z :=
  match bits with
  | O => r
  | S b =>
      let c := r + 2 ^ Z.of_nat b in
      root3_bits b n (if c * c * c <=? n then c else r)
  end.

Definition frac32_root3 (p : Z) : Z := w32 (root3_bits 40 (p * 2 ^ 96) 0).

Definition frac32_sqrt (p : Z) : Z := w32 (Z.sqrt (p * 2 ^ 64)).

Definition K : list Z := Eval vm_compute in map frac32_root3 (firstn 64 primes).

Definition H0 : list Z := Eval vm_compute in map frac32_sqrt (firstn 8 primes).

(** Big-endian bytes of an integer, [n] bytes wide. *)
Fixpoint be_bytes (n : nat) (x : Z) : bytes :=
  match n with
  | O => []
  | S n' => (Z.shiftr x (8 * Z.of_nat n')) mod 256 :: be_bytes n' x
  end.

(** Big-endian value of a byte string. *)
Definition be_value (bs : bytes) : Z :=
  fold_left (fun acc b => 256 * acc + b) bs 0.

(** Padding: 0x80, zero bytes up to 56 mod 64, then the bit length on 64 bits. *)
Definition pad (msg : bytes) : bytes :=
  let len := Z.of_nat (length msg) in
  let zeros := Z.to_nat ((55 - len) mod 64) in
  msg ++ [0x80] ++ repeat 0 zeros ++ be_bytes 8 ((8 * len) mod 2 ^ 64).

(** The 16 big-endian words of a 64-byte block. *)
Fixpoint words (n : nat) (block : bytes) : list Z :=
  match n with
  | O => []
  | S n' => be_value (firstn 4 block) :: words n' (skipn 4 block)
  end.

(** Message schedule, most recent word first: [rw] holds W[t-1], W[t-2], ... *)
Fixpoint schedule (n : nat) (rw : list Z) : list Z :=
  match n with
  | O => rw
  | S n' =>
      let w := add32 (add32 (add32 (sigma1 (nth 1 rw 0)) (nth 6 rw 0))
                            (sigma0 (nth 14 rw 0))) (nth 15 rw 0) in
      schedule n' (w :: rw)
  end.

Record regs := Regs { ra : Z; rb : Z; rc : Z; rd : Z;
                      re : Z; rf : Z; rg : Z; rh : Z }.

Definition round (s : regs) (kw : Z * Z) : regs :=
  let '(k, w) := kw in
  let t1 := add32 (add32 (add32 (add32 (rh s) (Sigma1 (re s)))
                                (Ch (re s) (rf s) (rg s))) k) w in
  let t2 := add32 (Sigma0 (ra s)) (Maj (ra s) (rb s) (rc s)) in
  Regs (add32 t1 t2) (ra s) (rb s) (rc s) (add32 (rd s) t1) (re s) (rf s) (rg s).

Definition compress (H : list Z) (block : bytes) : list Z :=
  let W := rev (schedule 48 (rev (words 16 block))) in
  let h i := nth i H 0 in
  let s0 := Regs (h 0%nat) (h 1%nat) (h 2%nat) (h 3%nat)
                 (h 4%nat) (h 5%nat) (h 6%nat) (h 7%nat) in
  let s := fold_left round (combine K W) s0 in
  [ add32 (h 0%nat) (ra s); add32 (h 1%nat) (rb s);
    add32 (h 2%nat) (rc s); add32 (h 3%nat) (rd s);
    add32 (h 4%nat) (re s); add32 (h 5%nat) (rf s);
    add32 (h 6%nat) (rg s); add32 (h 7%nat) (rh s) ].

(** [n] consecutive 64-byte blocks of [bs]. *)
Fixpoint hash_blocks (n : nat) (bs : bytes) (H : list Z) : list Z :=
  match n with
  | O => H
  | S n' => hash_blocks n' (skipn 64 bs) (compress H (firstn 64 bs))
  end.

(** [hashlib.sha256(msg).digest()]: 32 bytes. *)
Definition digest (msg : bytes) : bytes :=
  let p := pad msg in
  flat_map (be_bytes 4) (hash_blocks (length p / 64) p H0).

End SHA256.

Definition is_byte (b : Z) : Prop := 0 <= b < 256.

(** ** bytes.hex / hexdigest *)

Definition hex_char (d : Z) : Z :=
  if d <? 10 then 48 + d else 87 + d.

Definition hex_byte (b : Z) : pystr := [hex_char (b / 16); hex_char (b mod 16)].

Definition hexlify (bs : bytes) : pystr := flat_map hex_byte bs.

(** The characters [hexlify] writes: 0-9 and a-f. *)
Definition is_lower_hex (c : Z) : Prop := 48 <= c <= 57 \/ 97 <= c <= 102.

(** [hashlib.sha256(msg).hexdigest()] *)
Definition hexdigest (msg : bytes) : pystr := hexlify (SHA256.digest msg).

(** ** str(n), f-string fields and str.encode *)

(** [str(n)] and the f-string field [{n}] for an [int]: decimal digits,
    with a leading minus sign for a negative number. *)
Definition str (n : Z) : pystr := lit (NilZero.string_of_int (Z.to_int n)).

(** The field [{n:2d}]: decimal, right-aligned with spaces in a width of 2
    (a longer number is not cut). *)
Definition format_2d (n : Z) : pystr :=
  let s := str n in
  repeat 32 (2 - length s) ++ s.

Definition is_ascii (c : Z) : Prop := 0 <= c < 128.

Definition is_surrogate (c : Z) : bool := (0xD800 <=? c) && (c <=? 0xDFFF).

(** UTF-8 bytes of one code point.  A surrogate raises UnicodeEncodeError;
    so does, in this model, a number that is no code point at all (such a
    value cannot occur in a Python [str]). *)
Definition utf8_char (c : Z) : result bytes :=
  if (0 <=? c) && (c <? 0x80) then Ok [c]
  else if (0x80 <=? c) && (c <? 0x800) then
    Ok [Z.lor 0xC0 (Z.shiftr c 6); Z.lor 0x80 (Z.land c 0x3F)]
  else if (0x800 <=? c) && (c <? 0x10000) then
    if is_surrogate c then Err (UnicodeEncodeError c)
    else Ok [Z.lor 0xE0 (Z.shiftr c 12);
             Z.lor 0x80 (Z.land (Z.shiftr c 6) 0x3F);
             Z.lor 0x80 (Z.land c 0x3F)]
  else if (0x10000 <=? c) && (c <=? 0x10FFFF) then
    Ok [Z.lor 0xF0 (Z.shiftr c 18);
        Z.lor 0x80 (Z.land (Z.shiftr c 12) 0x3F);
        Z.lor 0x80 (Z.land (Z.shiftr c 6) 0x3F);
        Z.lor 0x80 (Z.land c 0x3F)]
  else Err (UnicodeEncodeError c).

(** [s.encode("utf-8")] *)
Fixpoint encode_utf8 (s : pystr) : result bytes :=
  match s with
  | [] => Ok []
  | c :: rest =>
      (b <- utf8_char c ;;
       bs <- encode_utf8 rest ;;
       Ok (b ++ bs))%result
  end.

(** ** int(s, 16)

    The literal grammar of [int] with base 16 on ASCII text: surrounding
    white space (space, and the characters 9 to 13), an optional sign, an
    optional [0x]/[0X] prefix, then hexadecimal digits of either case with
    single underscores between them.

    The model is that of ASCII text only.  On a text with a code point
    above 127 Python first rewrites the white space and the decimal digits
    of other scripts, and may then accept it; [int16] rejects every such
    text.  A value [Ok t] is therefore always the value Python returns (the
    text is then ASCII), while a theorem that draws on the branch [Err]
    assumes an ASCII text. *)

Definition is_space (c : Z) : bool :=
  (c =? 32) || ((9 <=? c) && (c <=? 13)).

Fixpoint lstrip (s : pystr) : pystr :=
  match s with
  | [] => []
  | c :: rest => if is_space c then lstrip rest else s
  end.

Definition strip (s : pystr) : pystr := rev (lstrip (rev (lstrip s))).

Definition hex_value (c : Z) : option Z :=
  if (48 <=? c) && (c <=? 57) then Some (c - 48)
  else if (97 <=? c) && (c <=? 102) then Some (c - 87)
  else if (65 <=? c) && (c <=? 70) then Some (c - 55)
  else None.

(** The digit loop: [acc] is the value read so far, [prev_digit] tells
    whether the previous character was a digit (an underscore is allowed
    only then, and the literal must end on a digit). *)
Fixpoint digits16 (s : pystr) (acc : Z) (prev_digit : bool) : option Z :=
  match s with
  | [] => if prev_digit then Some acc else None
  | c :: rest =>
      if c =? 95 then
        if prev_digit then digits16 rest acc false else None
      else
        match hex_value c with
        | Some d => digits16 rest (16 * acc + d) true
        | None => None
        end
  end.

(** After the sign: the prefix and the one underscore allowed behind it. *)
Definition skip_prefix (s : pystr) : pystr :=
  match s with
  | z :: x :: rest =>
      if (z =? 48) && ((x =? 120) || (x =? 88)) then
        match rest with
        | u :: rest' => if u =? 95 then rest' else rest
        | [] => rest
        end
      else s
  | _ => s
  end.

Definition split_sign (s : pystr) : bool * pystr :=
  match s with
  | c :: rest =>
      if c =? 45 then (true, rest)
      else if c =? 43 then (false, rest)
      else (false, s)
  | [] => (false, s)
  end.

Definition int16 (s : pystr) : result Z :=
  let '(negative, unsigned) := split_sign (strip s) in
  match digits16 (skip_prefix unsigned) 0 false with
  | Some v => Ok (if negative then - v else v)
  | None => Err (ValueError s)
  end.

(** ** The script *)

Definition hit : Type := Z * pystr.

(** [range(n)]: 0, 1, ..., n-1; empty when [n <= 0]. *)
Definition range (n : Z) : list Z := map Z.of_nat (seq 0 (Z.to_nat n)).

Section Scan.

Variable prefix : pystr.
Variable target : Z.

(** [msg = f"{prefix}{nonce}".encode("utf-8")] *)
Definition message (nonce : Z) : result bytes :=
  encode_utf8 (prefix ++ str nonce).

(** One pass through the body of the [for] loop. *)
Definition loop_body (nonce : Z) (hits : list hit) : result (list hit) :=
  (msg <- message nonce ;;
   let h := hexdigest msg in
   v <- int16 h ;;
   if v <? target then Ok (hits ++ [(nonce, h)]) else Ok hits)%result.

(** [for nonce in nonces: ...], from the list [hits] built so far. *)
Fixpoint for_loop (nonces : list Z) (hits : list hit) : result (list hit) :=
  match nonces with
  | [] => Ok hits
  | nonce :: rest =>
      (hits' <- loop_body nonce hits ;; for_loop rest hits')%result
  end.

Variable count : Z.

(** [hits = []] followed by the loop over [range(count)]. *)
Definition scan : result (list hit) := for_loop (range count) [].

(** The same loop as a transition system: the range iterator stands at
    [i] and [hits] is the list built so far. *)
Inductive config : Type :=
| Running (i : Z) (hits : list hit)
| Finished (hits : list hit)
| Raised (e : exn).

Inductive step : config -> config -> Prop :=
| step_body : forall i hits hits',
    i < count ->
    loop_body i hits = Ok hits' ->
    step (Running i hits) (Running (i + 1) hits')
| step_raise : forall i hits e,
    i < count ->
    loop_body i hits = Err e ->
    step (Running i hits) (Raised e)
| step_exit : forall i hits,
    count <= i ->
    step (Running i hits) (Finished hits).

(** [n] transitions in a row. *)
Inductive steps : nat -> config -> config -> Prop :=
| steps_O : forall c, steps O c c
| steps_S : forall n c1 c2 c3,
    step c1 c2 -> steps n c2 c3 -> steps (S n) c1 c3.

Definition initial : config := Running 0 [].

Definition final (c : config) : Prop :=
  match c with
  | Running _ _ => False
  | _ => True
  end.

(** The body of the loop is entered with [nonce = i]. *)
Definition processed (i : Z) : Prop :=
  exists n hits, steps n initial (Running i hits) /\ i < count.

End Scan.

(** The encoding of standard output, as the set of the code points it can
    write (its error handler is the default one, [strict]). *)
Definition codec : Type := Z -> bool.

(** UTF-8 writes every code point but the surrogates; ASCII the first 128. *)
Definition utf8_codec : codec :=
  fun c => match utf8_char c with Ok _ => true | Err _ => false end.

Definition ascii_codec : codec := fun c => (0 <=? c) && (c <? 128).

(** The first code point of a text that the encoding cannot write. *)
Definition unencodable (enc : codec) (text : pystr) : option Z :=
  find (fun c => negb (enc c)) text.

(** Standard output is state; an exception leaves what was printed. *)
Definition io (A : Type) : Type := list pystr -> list pystr * result A.

Definition io_bind {A B : Type} (m : io A) (k : A -> io B) : io B :=
  fun out =>
    match m out with
    | (out', Ok a) => k a out'
    | (out', Err e) => (out', Err e)
    end.

Definition lift {A : Type} (r : result A) : io A := fun out => (out, r).

(** [print(text)]: the text is written whole, or, when the encoding of
    standard output lacks one of its characters, not at all, and
    UnicodeEncodeError is raised. *)
Definition print (enc : codec) (text : pystr) : io unit :=
  fun out =>
    match unencodable enc text with
    | Some c => (out, Err (UnicodeEncodeError c))
    | None => (out ++ [text], Ok tt)
    end.

Declare Scope io_scope.
Delimit Scope io_scope with io.
Notation "x <- m ;; k" := (io_bind m (fun x => k))
  (at level 61, m at next level, right associativity) : io_scope.
Notation "m ;; k" := (io_bind m (fun _ => k))
  (at level 61, right associativity) : io_scope.

(** [print(f"  nonce={n:2d}  hash=0x{hx}")] *)
Definition hit_line (h : hit) : pystr :=
  lit "  nonce=" ++ format_2d (fst h) ++ lit "  hash=0x" ++ snd h.

(** [for n, hx in hits: print(...)] *)
Fixpoint print_hits (enc : codec) (hits : list hit) : io unit :=
  match hits with
  | [] => lift (Ok tt)
  | h :: rest => (print enc (hit_line h) ;; print_hits enc rest)%io
  end.

(** [print(f"Trials: 64, Target: 0x{target_hex}")] *)
Definition summary_line (target_hex : pystr) : pystr :=
  lit "Trials: 64, Target: 0x" ++ target_hex.

(** [print(f"Hits: {len(hits)} (... 64 * 1/16 = 4)")]; the four code points
    are the CJK characters of the source text. *)
Definition hits_line (hits : list hit) : pystr :=
  lit "Hits: " ++ str (Z.of_nat (length hits)) ++ lit " (" ++
  [0x671F; 0x5F85; 0x503C; 0x7D04] ++ lit " 64 * 1/16 = 4)".

(** The whole script, with its three constants as parameters, on a
    standard output of encoding [enc]. *)
Definition script (enc : codec) (prefix target_hex : pystr) (count : Z)
  : io unit :=
  (target <- lift (int16 target_hex) ;;
   hits <- lift (scan prefix target count) ;;
   print enc (summary_line target_hex) ;;
   print enc (hits_line hits) ;;
   print_hits enc hits)%io.

(** What the interpreter leaves behind: the texts printed, the exit status
    (1 after an uncaught exception) and the exception reported on stderr. *)
Record outcome : Type := Outcome {
  stdout : list pystr;
  exit_status : Z;
  uncaught : option exn
}.

Definition run (p : io unit) : outcome :=
  match p [] with
  | (out, Ok _) => Outcome out 0 None
  | (out, Err e) => Outcome out 1 (Some e)
  end.

(** The constants of the script. *)
Definition target_hex : pystr :=
  lit "0fffffffffffffffffffffffffffffffffffffffffffffffffffffffffffffff".

(** The value of [target = int(target_hex, 16)]. *)
Definition main_target : Z := 2 ^ 252 - 1.

Definition main_prefix : pystr := lit "jesse".

Definition main (enc : codec) : outcome :=
  run (script enc main_prefix target_hex 64).

(** The characters that reach standard output: [print] ends each text
    with a newline. *)
Definition stdout_text (o : outcome) : pystr :=
  flat_map (fun text => text ++ [10]) (stdout o).

(** The lines of a stream of characters; [line] is the line being read. *)
Fixpoint split_lines (text line : pystr) : list pystr :=
  match text with
  | [] => match line with [] => [] | _ => [line] end
  | c :: rest =>
      if c =? 10 then line :: split_lines rest []
      else split_lines rest (line ++ [c])
  end.

Definition text_lines (text : pystr) : list pystr := split_lines text [].

(** Printing the texts of a list one after the other, as the three
    [print] statements of the script do. *)
Fixpoint printed (enc : codec) (texts out : list pystr)
  : list pystr * result unit :=
  match texts with
  | [] => (out, Ok tt)
  | text :: rest =>
      match unencodable enc text with
      | Some c => (out, Err (UnicodeEncodeError c))
      | None => printed enc rest (out ++ [text])
      end
  end.

(** All that the script prints when nothing fails. *)
Definition full_output (th : pystr) (hits : list hit) : list pystr :=
  summary_line th :: hits_line hits :: map hit_line hits.

(** The four characters of the remark in the second text. *)
Definition remark_chars : pystr := [0x671F; 0x5F85; 0x503C; 0x7D04].

(** The characters the script can print for a target of hexadecimal
    digits: printable ASCII and the remark. *)
Definition plain (c : Z) : bool :=
  ((32 <=? c) && (c <? 127)) || existsb (Z.eqb c) remark_chars.

(** An encoding that writes printable ASCII and the remark. *)
Definition writes_headers (enc : codec) : Prop :=
  (forall c, 32 <= c < 127 -> enc c = true)
  /\ forallb enc remark_chars = true.

(** ** The scan in the words of the specification

    Message, Digest and Hit as the data model describes them, over the
    UTF-8 bytes [pb] of the prefix; the theorems below compare the loop of
    the script with these. *)

Definition spec_message (pb : bytes) (nonce : Z) : bytes := pb ++ str nonce.

Definition spec_digest (pb : bytes) (nonce : Z) : Z :=
  SHA256.be_value (SHA256.digest (spec_message pb nonce)).

Definition spec_digest_hex (pb : bytes) (nonce : Z) : pystr :=
  hexlify (SHA256.digest (spec_message pb nonce)).

Definition spec_is_hit (pb : bytes) (target nonce : Z) : bool :=
  spec_digest pb nonce <? target.

Definition spec_hits_of (pb : bytes) (target : Z) (nonces : list Z) : list hit :=
  map (fun n => (n, spec_digest_hex pb n)) (filter (spec_is_hit pb target) nonces).

Definition spec_hits (pb : bytes) (target count : Z) : list hit :=
  spec_hits_of pb target (range count).

(** The final configuration that corresponds to a result of the loop. *)
Definition config_of (r : result (list hit)) : config :=
  match r with
  | Ok hits => Finished hits
  | Err e => Raised e
  end.

(** The steps a configuration can still take, at most. *)
Definition fuel (count : Z) (c : config) : nat :=
  match c with
  | Running i _ => S (Z.to_nat (count - i))
  | _ => O
  end.

(** The target as 32 bytes: 0x0f, then 31 times 0xff. *)
Definition target_bytes : bytes := 15 :: repeat 255 31.

(** The test on the text of a digest that the strict comparison with the
    target of the script amounts to: a leading zero digit, and not the text
    of the target itself. *)
Definition leading_zero_test (h : pystr) : bool :=
  (hd 0 h =? 48) && (if list_eq_dec Z.eq_dec h target_hex then false else true).

(** ** Two sentences of the specification, word for word

    The error contract ("fails with InvalidInput if the target hex string
    is malformed or count is negative") and the format of a hit line
    ("nonce=<int> hash=0x<64-hex-chars>"), to be confronted with the
    script. *)

(** A hexadecimal string in the plain sense of the words: one or more
    hexadecimal digits and nothing else (what the script prints behind
    "Target: 0x"). *)
Definition is_hex_string (s : pystr) : bool :=
  match s with
  | [] => false
  | _ => forallb (fun c => match hex_value c with
                           | Some _ => true
                           | None => false
                           end) s
  end.

Definition claimed_invalid_input_aborts : Prop :=
  forall (enc : codec) (prefix th : pystr) (count : Z),
    is_hex_string th = false \/ count < 0 ->
    exit_status (run (script enc prefix th count)) <> 0
    /\ stdout (run (script enc prefix th count)) = [].

Definition claimed_hit_line (h : hit) : pystr :=
  lit "nonce=" ++ str (fst h) ++ lit " hash=0x" ++ snd h.

Definition claimed_output (out : list pystr) : Prop :=
  exists first second hits,
    out = first :: second :: map claimed_hit_line hits.

(** ** Reading a hit back

    The test of the loop, applied to the text of a recorded hit. *)
Definition hit_below (target : Z) (h : hit) : bool :=
  match int16 (snd h) with
  | Ok v => v <? target
  | Err _ => false
  end.

(** [s1 < s2] on [str]: the order of the first code points that differ, a
    proper prefix coming first. *)
Fixpoint str_lt (s1 s2 : pystr) : bool :=
  match s1, s2 with
  | _, [] => false
  | [], _ :: _ => true
  | c1 :: r1, c2 :: r2 => (c1 <? c2) || ((c1 =? c2) && str_lt r1 r2)
  end.

(** * Properties *)

(** ** The embedding of SHA-256 on the standard test vectors *)

Example sha256_abc :
  hexdigest (lit "abc") =
  lit "ba7816bf8f01cfea414140de5dae2223b00361a396177a9cb410ff61f20015ad".
Proof. vm_compute. reflexivity. Qed.

Example sha256_empty :
  hexdigest [] =
  lit "e3b0c44298fc1c149afbf4c8996fb92427ae41e4649b934ca495991b7852b855".
Proof. vm_compute. reflexivity. Qed.

Example sha256_two_blocks :
  hexdigest (lit "abcdbcdecdefdefgefghfghighijhijkijkljklmklmnlmnomnopnopq") =
  lit "248d6a61d20638b8e5c026930c3e6039a33ce45964ff2167f6ecedd419db06c1".
Proof. vm_compute. reflexivity. Qed.

Example sha256_constants :
  length SHA256.K = 64%nat
  /\ firstn 2 SHA256.K = [0x428a2f98; 0x71374491]
  /\ nth 63 SHA256.K 0 = 0xc67178f2
  /\ length SHA256.H0 = 8%nat
  /\ nth 0 SHA256.H0 0 = 0x6a09e667
  /\ nth 7 SHA256.H0 0 = 0x5be0cd19.
Proof. repeat split. Qed.

(** ** Bytes and their big-endian value *)

Lemma be_bytes_length n x : length (SHA256.be_bytes n x) = n.
Proof. induction n; simpl; congruence. Qed.

Lemma be_bytes_is_byte n x : Forall is_byte (SHA256.be_bytes n x).
Proof.
  induction n; simpl; constructor; auto.
  unfold is_byte. apply Z.mod_pos_bound. lia.
Qed.

Lemma be_value_snoc bs b :
  SHA256.be_value (bs ++ [b]) = 256 * SHA256.be_value bs + b.
Proof. unfold SHA256.be_value. rewrite fold_left_app. reflexivity. Qed.

Lemma be_value_bounds bs :
  Forall is_byte bs ->
  0 <= SHA256.be_value bs < 256 ^ Z.of_nat (length bs).
Proof.
  induction bs as [|b bs IH] using rev_ind; intros Hb.
  - cbn. lia.
  - apply Forall_app in Hb as [Hbs Hlast].
    inversion Hlast as [|? ? Hbyte _]; subst. unfold is_byte in Hbyte.
    specialize (IH Hbs).
    rewrite be_value_snoc, length_app, Nat2Z.inj_add. simpl length.
    rewrite Z.pow_add_r by lia. change (256 ^ Z.of_nat 1) with 256. nia.
Qed.

Lemma be_bytes_snoc n x :
  SHA256.be_bytes (S n) x = SHA256.be_bytes n (Z.shiftr x 8) ++ [x mod 256].
Proof.
  induction n as [|n IH].
  - cbn [SHA256.be_bytes app]. rewrite Z.shiftr_0_r. reflexivity.
  - change (SHA256.be_bytes (S (S n)) x)
      with (Z.shiftr x (8 * Z.of_nat (S n)) mod 256 :: SHA256.be_bytes (S n) x).
    rewrite IH. cbn [SHA256.be_bytes app]. f_equal. f_equal.
    rewrite Z.shiftr_shiftr by lia. f_equal. lia.
Qed.

(** A byte string is the big-endian writing of its own value. *)
Lemma be_bytes_be_value bs :
  Forall is_byte bs ->
  SHA256.be_bytes (length bs) (SHA256.be_value bs) = bs.
Proof.
  induction bs as [|b bs IH] using rev_ind; intros Hb.
  - reflexivity.
  - apply Forall_app in Hb as [Hbs Hlast].
    inversion Hlast as [|? ? Hbyte _]; subst. unfold is_byte in Hbyte.
    rewrite length_app, Nat.add_comm. cbn [length Nat.add].
    rewrite be_bytes_snoc, be_value_snoc.
    rewrite Z.shiftr_div_pow2 by lia. change (2 ^ 8) with 256.
    replace ((256 * SHA256.be_value bs + b) / 256) with (SHA256.be_value bs)
      by (apply Z.div_unique with b; lia).
    replace ((256 * SHA256.be_value bs + b) mod 256) with b
      by (apply Z.mod_unique with (SHA256.be_value bs); lia).
    rewrite IH by assumption. reflexivity.
Qed.

Lemma be_value_inj bs1 bs2 :
  length bs1 = length bs2 -> Forall is_byte bs1 -> Forall is_byte bs2 ->
  SHA256.be_value bs1 = SHA256.be_value bs2 -> bs1 = bs2.
Proof.
  intros Hlen H1 H2 Hv.
  rewrite <- (be_bytes_be_value bs1 H1), <- (be_bytes_be_value bs2 H2).
  congruence.
Qed.

(** ** The shape of a digest *)

Lemma compress_length H block : length (SHA256.compress H block) = 8%nat.
Proof. reflexivity. Qed.

Lemma hash_blocks_length n : forall bs H,
  length H = 8%nat -> length (SHA256.hash_blocks n bs H) = 8%nat.
Proof.
  induction n as [|n IH]; intros bs H HH; simpl; auto.
Qed.

Lemma flat_map_be_bytes_length ws :
  length (flat_map (SHA256.be_bytes 4) ws) = (4 * length ws)%nat.
Proof.
  induction ws as [|w ws IH]; [reflexivity|].
  cbn [flat_map]. rewrite length_app, be_bytes_length, IH. simpl. lia.
Qed.

Lemma digest_length msg : length (SHA256.digest msg) = 32%nat.
Proof.
  unfold SHA256.digest.
  rewrite flat_map_be_bytes_length, hash_blocks_length; reflexivity.
Qed.

Lemma digest_is_byte msg : Forall is_byte (SHA256.digest msg).
Proof.
  unfold SHA256.digest.
  induction (SHA256.hash_blocks _ _ _) as [|w ws IH]; cbn [flat_map].
  - constructor.
  - apply Forall_app. split; [apply be_bytes_is_byte | exact IH].
Qed.

Lemma digest_value_bounds msg :
  0 <= SHA256.be_value (SHA256.digest msg) < 2 ^ 256.
Proof.
  pose proof (be_value_bounds _ (digest_is_byte msg)) as H.
  rewrite digest_length in H. exact H.
Qed.

(** ** hexlify and int(_, 16) *)

Ltac cases_on_tests :=
  repeat match goal with
  | |- context [?a =? ?b] => destruct (Z.eqb_spec a b)
  | |- context [?a <=? ?b] => destruct (Z.leb_spec a b)
  | |- context [?a <? ?b] => destruct (Z.ltb_spec a b)
  end;
  cbn [andb orb negb]; try reflexivity; try lia.

Lemma hex_char_lower_hex d : 0 <= d < 16 -> is_lower_hex (hex_char d).
Proof. intros Hd. unfold is_lower_hex, hex_char. cases_on_tests. Qed.

Lemma hex_value_hex_char d : 0 <= d < 16 -> hex_value (hex_char d) = Some d.
Proof.
  intros Hd. unfold hex_value, hex_char.
  destruct (Z.ltb_spec d 10); cases_on_tests; f_equal; lia.
Qed.

Lemma lower_hex_value c : is_lower_hex c -> exists d, hex_value c = Some d.
Proof.
  intros Hc. unfold is_lower_hex in Hc. unfold hex_value.
  cases_on_tests; eauto.
Qed.

Lemma lower_hex_not_space c : is_lower_hex c -> is_space c = false.
Proof. intros Hc. unfold is_lower_hex in Hc. unfold is_space. cases_on_tests. Qed.

Lemma hexlify_length bs : length (hexlify bs) = (2 * length bs)%nat.
Proof.
  induction bs as [|b bs IH]; [reflexivity|].
  cbn [hexlify flat_map hex_byte app length] in *. fold (hexlify bs). lia.
Qed.

Lemma nibbles b : is_byte b -> 0 <= b / 16 < 16 /\ 0 <= b mod 16 < 16.
Proof.
  unfold is_byte. intros Hb. split.
  - split; [apply Z.div_pos; lia | apply Z.div_lt_upper_bound; lia].
  - apply Z.mod_pos_bound. lia.
Qed.

Lemma hexlify_lower_hex bs : Forall is_byte bs -> Forall is_lower_hex (hexlify bs).
Proof.
  induction 1 as [|b bs Hb _ IH]; [constructor|].
  destruct (nibbles b Hb).
  cbn [hexlify flat_map hex_byte app]. fold (hexlify bs).
  constructor; [now apply hex_char_lower_hex|].
  constructor; [now apply hex_char_lower_hex | exact IH].
Qed.

Lemma lstrip_no_space s :
  Forall (fun c => is_space c = false) s -> lstrip s = s.
Proof. destruct 1 as [|c s Hc _]; [reflexivity|]. simpl. now rewrite Hc. Qed.

Lemma strip_no_space s :
  Forall (fun c => is_space c = false) s -> strip s = s.
Proof.
  intros Hs. unfold strip. rewrite (lstrip_no_space s Hs).
  rewrite lstrip_no_space by (apply Forall_rev; exact Hs).
  apply rev_involutive.
Qed.

Lemma strip_lower_hex s : Forall is_lower_hex s -> strip s = s.
Proof.
  intros Hs. apply strip_no_space.
  eapply Forall_impl; [|exact Hs]. apply lower_hex_not_space.
Qed.

Lemma split_sign_lower_hex s : Forall is_lower_hex s -> split_sign s = (false, s).
Proof.
  destruct 1 as [|c s Hc _]; [reflexivity|].
  unfold is_lower_hex in Hc. unfold split_sign. cases_on_tests.
Qed.

Lemma skip_prefix_lower_hex s : Forall is_lower_hex s -> skip_prefix s = s.
Proof.
  destruct 1 as [|c s Hc Hs]; [reflexivity|].
  destruct Hs as [|x s Hx _]; [reflexivity|].
  unfold is_lower_hex in Hx. unfold skip_prefix.
  destruct (Z.eqb_spec x 120); [lia|]. destruct (Z.eqb_spec x 88); [lia|].
  now rewrite Bool.andb_false_r.
Qed.

(** The digit loop reads the two characters of a byte as that byte. *)
Lemma digits16_hex_byte b rest acc p :
  is_byte b ->
  digits16 (hex_byte b ++ rest) acc p = digits16 rest (256 * acc + b) true.
Proof.
  intros Hb. destruct (nibbles b Hb) as [Hhi Hlo].
  pose proof (hex_char_lower_hex _ Hhi) as Lhi.
  pose proof (hex_char_lower_hex _ Hlo) as Llo.
  unfold is_lower_hex in Lhi, Llo.
  cbn [hex_byte app digits16].
  destruct (Z.eqb_spec (hex_char (b / 16)) 95); [lia|].
  destruct (Z.eqb_spec (hex_char (b mod 16)) 95); [lia|].
  rewrite !hex_value_hex_char by assumption.
  f_equal. pose proof (Z.div_mod b 16). lia.
Qed.

Lemma digits16_hexlify bs : forall acc,
  Forall is_byte bs ->
  digits16 (hexlify bs) acc true
  = Some (fold_left (fun a b => 256 * a + b) bs acc).
Proof.
  induction bs as [|b bs IH]; intros acc Hbs; [reflexivity|].
  inversion Hbs; subst.
  cbn [hexlify flat_map fold_left]. fold (hexlify bs).
  rewrite digits16_hex_byte by assumption. now apply IH.
Qed.

(** Reading back what [hexlify] wrote gives the big-endian value. *)
Lemma int16_hexlify bs :
  Forall is_byte bs -> bs <> [] ->
  int16 (hexlify bs) = Ok (SHA256.be_value bs).
Proof.
  intros Hbs Hne. pose proof (hexlify_lower_hex bs Hbs) as Hhex.
  unfold int16.
  rewrite strip_lower_hex, split_sign_lower_hex, skip_prefix_lower_hex
    by assumption.
  destruct bs as [|b bs]; [congruence|]. inversion Hbs; subst.
  cbn [hexlify flat_map]. fold (hexlify bs).
  rewrite digits16_hex_byte, digits16_hexlify by assumption.
  reflexivity.
Qed.

Lemma hexdigest_length msg : length (hexdigest msg) = 64%nat.
Proof. unfold hexdigest. now rewrite hexlify_length, digest_length. Qed.

Lemma hexdigest_lower_hex msg : Forall is_lower_hex (hexdigest msg).
Proof. apply hexlify_lower_hex, digest_is_byte. Qed.

Lemma int16_hexdigest msg :
  int16 (hexdigest msg) = Ok (SHA256.be_value (SHA256.digest msg)).
Proof.
  apply int16_hexlify; [apply digest_is_byte|].
  intros E. pose proof (digest_length msg) as L. rewrite E in L. discriminate.
Qed.

(** ** str and str.encode *)

Lemma lit_cons a s : lit (String a s) = Z.of_N (N_of_ascii a) :: lit s.
Proof. reflexivity. Qed.

Lemma lit_uint_digits d :
  Forall (fun c => 48 <= c <= 57) (lit (NilEmpty.string_of_uint d)).
Proof.
  induction d; cbn [NilEmpty.string_of_uint]; try rewrite lit_cons;
    constructor; try assumption; cbn; lia.
Qed.

Lemma str_ascii n : Forall is_ascii (str n).
Proof.
  assert (Hu : forall d, Forall is_ascii (lit (NilZero.string_of_uint d))).
  { intros d.
    assert (Hd : Forall is_ascii (lit (NilEmpty.string_of_uint d))).
    { eapply Forall_impl; [|apply lit_uint_digits].
      unfold is_ascii. cbn beta. lia. }
    destruct d; try exact Hd.
    constructor; [unfold is_ascii; cbn; lia | constructor]. }
  unfold str. destruct (Z.to_int n) as [d|d]; cbn [NilZero.string_of_int].
  - apply Hu.
  - rewrite lit_cons. constructor; [unfold is_ascii; cbn; lia | apply Hu].
Qed.

Lemma utf8_char_ascii c : is_ascii c -> utf8_char c = Ok [c].
Proof. unfold is_ascii, utf8_char. intros Hc. cases_on_tests. Qed.

Lemma encode_utf8_ascii s : Forall is_ascii s -> encode_utf8 s = Ok s.
Proof.
  induction 1 as [|c s Hc _ IH]; [reflexivity|].
  cbn [encode_utf8]. rewrite (utf8_char_ascii c Hc), IH. reflexivity.
Qed.

Lemma encode_utf8_app s1 s2 b1 b2 :
  encode_utf8 s1 = Ok b1 -> encode_utf8 s2 = Ok b2 ->
  encode_utf8 (s1 ++ s2) = Ok (b1 ++ b2).
Proof.
  revert b1. induction s1 as [|c s1 IH]; intros b1 H1 H2.
  - injection H1 as <-. exact H2.
  - cbn [app encode_utf8] in *.
    destruct (utf8_char c) as [bc|e]; [|discriminate]. cbn [rbind] in *.
    destruct (encode_utf8 s1) as [bs|e]; [|discriminate]. cbn [rbind] in *.
    injection H1 as <-.
    rewrite (IH bs eq_refl H2). cbn [rbind]. now rewrite app_assoc.
Qed.

(** An undecodable prefix makes every message fail, whatever the nonce. *)
Lemma encode_utf8_app_err s1 s2 e :
  encode_utf8 s1 = Err e -> encode_utf8 (s1 ++ s2) = Err e.
Proof.
  induction s1 as [|c s1 IH]; intros H1; [discriminate|].
  cbn [app encode_utf8] in *.
  destruct (utf8_char c) as [bc|e']; [|exact H1]. cbn [rbind] in *.
  destruct (encode_utf8 s1) as [bs|e']; [discriminate|]. cbn [rbind] in *.
  injection H1 as <-. now rewrite IH.
Qed.

Lemma message_spec prefix pb nonce :
  encode_utf8 prefix = Ok pb ->
  message prefix nonce = Ok (spec_message pb nonce).
Proof.
  intros Hp. unfold message, spec_message.
  apply encode_utf8_app; [exact Hp | apply encode_utf8_ascii, str_ascii].
Qed.

(** ** The loop *)

Lemma loop_body_spec prefix pb target nonce hits :
  encode_utf8 prefix = Ok pb ->
  loop_body prefix target nonce hits =
  Ok (if spec_is_hit pb target nonce
      then hits ++ [(nonce, spec_digest_hex pb nonce)]
      else hits).
Proof.
  intros Hp. unfold loop_body.
  rewrite (message_spec prefix pb nonce Hp). cbn [rbind].
  rewrite int16_hexdigest. cbn [rbind].
  unfold spec_is_hit, spec_digest, spec_digest_hex, hexdigest.
  now destruct (_ <? target).
Qed.

Lemma loop_body_err prefix target nonce hits e :
  encode_utf8 prefix = Err e ->
  loop_body prefix target nonce hits = Err e.
Proof.
  intros Hp. unfold loop_body, message.
  now rewrite (encode_utf8_app_err prefix (str nonce) e Hp).
Qed.

Lemma for_loop_spec prefix pb target nonces : forall hits,
  encode_utf8 prefix = Ok pb ->
  for_loop prefix target nonces hits = Ok (hits ++ spec_hits_of pb target nonces).
Proof.
  induction nonces as [|n nonces IH]; intros hits Hp.
  - cbn. now rewrite app_nil_r.
  - cbn [for_loop]. rewrite (loop_body_spec prefix pb target n hits Hp).
    cbn [rbind]. rewrite IH by assumption.
    unfold spec_hits_of. cbn [filter].
    destruct (spec_is_hit pb target n); cbn [map]; [|reflexivity].
    now rewrite <- app_assoc.
Qed.

Lemma scan_spec prefix pb target count :
  encode_utf8 prefix = Ok pb ->
  scan prefix target count = Ok (spec_hits pb target count).
Proof. intros Hp. unfold scan. now rewrite (for_loop_spec prefix pb). Qed.

Lemma in_range n count : In n (range count) <-> 0 <= n < count.
Proof.
  unfold range. rewrite in_map_iff. split.
  - intros (k & <- & Hk). apply in_seq in Hk. lia.
  - intros Hn. exists (Z.to_nat n). split; [lia|]. apply in_seq. lia.
Qed.

Lemma seq_sorted k : forall a,
  StronglySorted Z.lt (map Z.of_nat (seq a k)).
Proof.
  induction k as [|k IH]; intros a; cbn [seq map]; constructor.
  - apply IH.
  - apply Forall_forall. intros x Hx. apply in_map_iff in Hx as (j & <- & Hj).
    apply in_seq in Hj. lia.
Qed.

Lemma filter_sorted (p : Z -> bool) l :
  StronglySorted Z.lt l -> StronglySorted Z.lt (filter p l).
Proof.
  induction 1 as [|x l Hs IH Hx]; cbn [filter]; [constructor|].
  destruct (p x); [|exact IH]. constructor; [exact IH|].
  apply Forall_forall. intros y Hy. apply filter_In in Hy as [Hy _].
  rewrite Forall_forall in Hx. now apply Hx.
Qed.

Lemma spec_hits_nonces pb target nonces :
  map fst (spec_hits_of pb target nonces) = filter (spec_is_hit pb target) nonces.
Proof.
  unfold spec_hits_of. rewrite map_map. cbn [fst]. apply map_id.
Qed.

Lemma in_spec_hits pb target count n h :
  In (n, h) (spec_hits pb target count) <->
  0 <= n < count /\ h = spec_digest_hex pb n /\ spec_digest pb n < target.
Proof.
  unfold spec_hits, spec_hits_of. rewrite in_map_iff. split.
  - intros (m & E & Hm). injection E as -> <-.
    apply filter_In in Hm as [Hr Hh]. apply in_range in Hr.
    unfold spec_is_hit in Hh. apply Z.ltb_lt in Hh. auto.
  - intros (Hr & -> & Hlt). exists n. split; [reflexivity|].
    apply filter_In. split; [now apply in_range|].
    unfold spec_is_hit. now apply Z.ltb_lt.
Qed.

(** C1. For the UTF-8 bytes [pb] of the prefix, any target and any count,
    the loop of the script returns exactly the pairs (nonce, hexdigest) for
    the nonces 0 .. count-1 whose digest is strictly below the target: every
    nonce of the range is tried, and the hits come in ascending nonce
    order. *)
Theorem scan_collects_hits prefix pb target count :
  encode_utf8 prefix = Ok pb ->
  scan prefix target count = Ok (spec_hits pb target count)
  /\ (forall n h,
        In (n, h) (spec_hits pb target count) <->
        0 <= n < count /\ h = spec_digest_hex pb n /\ spec_digest pb n < target)
  /\ StronglySorted Z.lt (map fst (spec_hits pb target count)).
Proof.
  intros Hp. split; [now apply scan_spec|]. split.
  - intros n h. apply in_spec_hits.
  - unfold spec_hits. rewrite spec_hits_nonces.
    apply filter_sorted. unfold range. apply seq_sorted.
Qed.

Lemma scan_collects_hits_witness :
  scan main_prefix (2 ^ 252 - 1) 64 = Ok (spec_hits main_prefix (2 ^ 252 - 1) 64)
  /\ (forall n h,
        In (n, h) (spec_hits main_prefix (2 ^ 252 - 1) 64) <->
        0 <= n < 64 /\ h = spec_digest_hex main_prefix n
        /\ spec_digest main_prefix n < 2 ^ 252 - 1)
  /\ StronglySorted Z.lt (map fst (spec_hits main_prefix (2 ^ 252 - 1) 64)).
Proof.
  apply (scan_collects_hits main_prefix main_prefix (2 ^ 252 - 1) 64).
  reflexivity.
Defined.

(** The hits of the script itself. *)
Example main_hits :
  scan main_prefix main_target 64 =
  Ok [ (0, lit "03cd34bd1813f6c4658024eaa97dd5da854d6e96547f914688fcbe78aca4b5f8");
       (2, lit "07a17c6abc11dc0ae9e0695b0d6d3f0aecc1899ce18786c1f10d612ff65d40c5");
       (3, lit "03f751560923b807dec90d1273478e5c79dd2792ab5642e26e74f46d4704bfde");
       (30, lit "0bbc7bd57fb75b8bc5341d502b5fee98670da6e2d2e61979d582f2bbcf2338e0");
       (47, lit "00867f286129a163dda556bfe9b2650e013c8b159f95d2f78298c7c8d480d379");
       (48, lit "0baab60478180b43dcfa47c10c4e9939ca86e8bada147dac55cdb4a41bba337e") ].
Proof. vm_compute. reflexivity. Qed.

(** ** The loop as a transition system *)

Section Run.

Variable prefix : pystr.
Variables target count : Z.

Local Abbreviation step := (step prefix target count).
Local Abbreviation steps := (steps prefix target count).

Lemma final_no_step c c' : final c -> ~ step c c'.
Proof. intros Hf Hs. inversion Hs; subst; exact Hf. Qed.

Lemma steps_snoc n c1 c2 c3 :
  steps n c1 c2 -> step c2 c3 -> steps (S n) c1 c3.
Proof.
  induction 1 as [c|n a b c Hs _ IH]; intros Hlast.
  - econstructor; [exact Hlast | constructor].
  - econstructor; [exact Hs | now apply IH].
Qed.

Lemma step_fuel c c' : step c c' -> (fuel count c' < fuel count c)%nat.
Proof. inversion 1; subst; cbn [fuel]; lia. Qed.

Lemma steps_fuel n c c' : steps n c c' -> (n + fuel count c' <= fuel count c)%nat.
Proof.
  induction 1 as [c|n a b c Hs _ IH]; [lia|].
  apply step_fuel in Hs. lia.
Qed.

Lemma steps_from_final n c c' : steps n c c' -> final c -> c' = c.
Proof.
  destruct 1 as [c|n a b c Hs _]; intros Hf; [reflexivity|].
  exfalso. exact (final_no_step _ _ Hf Hs).
Qed.

(** The iterator advances by one at each pass. *)
Lemma steps_position n c c' :
  steps n c c' ->
  forall i hits j hits', c = Running i hits -> c' = Running j hits' ->
  j = i + Z.of_nat n.
Proof.
  induction 1 as [c|n a b c Hs Hrest IH]; intros i hits j hits' E1 E2; subst.
  - injection E2 as -> _. lia.
  - inversion Hs; subst.
    + specialize (IH _ _ _ _ eq_refl eq_refl). lia.
    + apply steps_from_final in Hrest; [discriminate | exact I].
    + apply steps_from_final in Hrest; [discriminate | exact I].
Qed.

(** From any point of the range, the transition system runs to the
    configuration that [for_loop] computes, in one step per nonce left and
    one more to leave the loop when no pass raises. *)
Lemma run_from k : forall a hits,
  Z.to_nat (count - Z.of_nat a) = k ->
  let r := for_loop prefix target (map Z.of_nat (seq a k)) hits in
  exists n,
    (1 <= n <= S k)%nat
    /\ steps n (Running (Z.of_nat a) hits) (config_of r)
    /\ (forall h, r = Ok h -> n = S k).
Proof.
  induction k as [|k IH]; intros a hits Hk; cbn zeta.
  - exists 1%nat. cbn [seq map for_loop config_of].
    split; [lia|]. split; [|reflexivity].
    econstructor; [apply step_exit; lia | constructor].
  - cbn [seq map for_loop].
    destruct (loop_body prefix target (Z.of_nat a) hits) as [hits'|e] eqn:Hb;
      cbn [rbind].
    + destruct (IH (S a) hits') as (n & Hn & Hrun & Hok); [lia|].
      exists (S n). split; [lia|]. split.
      * econstructor; [apply step_body; [lia | exact Hb]|].
        replace (Z.of_nat a + 1) with (Z.of_nat (S a)) by lia. exact Hrun.
      * intros h Hh. f_equal. now apply Hok with h.
    + exists 1%nat. split; [lia|]. split; [|discriminate].
      econstructor; [apply step_raise; [lia | exact Hb] | constructor].
Qed.

Lemma config_of_final r : final (config_of r).
Proof. destruct r; exact I. Qed.

Lemma run_reaches_scan :
  exists n,
    (1 <= n <= S (Z.to_nat count))%nat
    /\ steps n initial (config_of (scan prefix target count))
    /\ (forall h, scan prefix target count = Ok h -> n = S (Z.to_nat count)).
Proof.
  destruct (run_from (Z.to_nat count) 0 []) as (n & Hn & Hrun & Hok); [lia|].
  exists n. auto.
Qed.

Lemma run_bounded n c : steps n initial c -> (n <= S (Z.to_nat count))%nat.
Proof.
  intros H. apply steps_fuel in H. unfold initial in H. cbn [fuel] in H.
  rewrite Z.sub_0_r in H. lia.
Qed.

Section Encodable.

Variable pb : bytes.
Hypothesis prefix_bytes : encode_utf8 prefix = Ok pb.

Lemma run_finishes :
  steps (S (Z.to_nat count)) initial (Finished (spec_hits pb target count)).
Proof.
  destruct run_reaches_scan as (n & _ & Hrun & Hok).
  rewrite (scan_spec prefix pb target count prefix_bytes) in *.
  now rewrite <- (Hok _ eq_refl).
Qed.

Lemma range_succ n :
  range (Z.of_nat (S n)) = range (Z.of_nat n) ++ [Z.of_nat n].
Proof.
  unfold range. rewrite !Nat2Z.id, seq_S, map_app. reflexivity.
Qed.

(** After [n] passes the iterator stands at [n], with the hits among the
    nonces below [n]. *)
Lemma run_reaches n :
  Z.of_nat n <= count ->
  steps n initial (Running (Z.of_nat n) (spec_hits pb target (Z.of_nat n))).
Proof.
  induction n as [|n IH]; intros Hn.
  - constructor.
  - eapply steps_snoc; [apply IH; lia|].
    replace (Z.of_nat (S n)) with (Z.of_nat n + 1) at 1 by lia.
    apply step_body; [lia|].
    rewrite (loop_body_spec prefix pb) by exact prefix_bytes.
    f_equal. unfold spec_hits, spec_hits_of.
    rewrite range_succ, filter_app, map_app. cbn [filter].
    destruct (spec_is_hit pb target (Z.of_nat n)); cbn [map];
      [reflexivity | now rewrite app_nil_r].
Qed.

Lemma processed_iff i : processed prefix target count i <-> 0 <= i < count.
Proof.
  split.
  - intros (n & hits & Hrun & Hi).
    pose proof (steps_position _ _ _ Hrun _ _ _ _ eq_refl eq_refl). lia.
  - intros Hi. exists (Z.to_nat i), (spec_hits pb target i).
    split; [|lia].
    pose proof (run_reaches (Z.to_nat i)) as H.
    rewrite Z2Nat.id in H by lia. apply H. lia.
Qed.

End Encodable.

End Run.

(** ** The script and its output *)

Lemma int16_error s e : int16 s = Err e -> e = ValueError s.
Proof.
  unfold int16. destruct (split_sign (strip s)) as [negative unsigned].
  destruct (digits16 _ _ _); [discriminate|]. now intros [= <-].
Qed.

Lemma range_empty count : count <= 0 -> range count = [].
Proof.
  intros H. unfold range. replace (Z.to_nat count) with O by lia. reflexivity.
Qed.

Lemma scan_empty prefix target count :
  count <= 0 -> scan prefix target count = Ok [].
Proof. intros H. unfold scan. now rewrite range_empty. Qed.

Lemma int16_target_hex : int16 target_hex = Ok main_target.
Proof. vm_compute. reflexivity. Qed.

(** The encoder on the text of the source file itself: the four CJK
    characters of the second output line are stored as these bytes. *)
Example utf8_of_source_text :
  encode_utf8 [0x671F; 0x5F85; 0x503C; 0x7D04] =
  Ok [0xE6; 0x9C; 0x9F; 0xE5; 0xBE; 0x85; 0xE5; 0x80; 0xBC; 0xE7; 0xB4; 0x84].
Proof. reflexivity. Qed.

Example utf8_other_lengths :
  encode_utf8 [0x41; 0xE9; 0x1F600] = Ok [0x41; 0xC3; 0xA9; 0xF0; 0x9F; 0x98; 0x80]
  /\ encode_utf8 (lit "ab" ++ [0xD800]) = Err (UnicodeEncodeError 0xD800).
Proof. split; reflexivity. Qed.

(** The digits [str] writes denote the number written. *)
Lemma decimal_reads_back n :
  option_map Z.of_int (NilZero.int_of_string (NilZero.string_of_int (Z.to_int n)))
  = Some n.
Proof.
  rewrite NilZero.isi.
  - cbn [option_map]. f_equal. apply DecimalZ.of_to.
  - destruct n; cbn [Z.to_int]; intros [= H].
    exact (Unsigned.to_uint_nonnil _ H).
  - destruct n; cbn [Z.to_int]; intros [= H].
    exact (Unsigned.to_uint_nonnil _ H).
Qed.

(** C2. In every pass of the loop the bytes hashed are the UTF-8 bytes of
    the prefix followed by the decimal digits of the nonce; the digest is
    one application of SHA-256 to them, written as 64 lowercase hexadecimal
    characters, and the number compared with the target is the big-endian
    value of the 32 digest bytes, obtained by reading that text in base 16. *)
Theorem message_and_digest prefix pb target nonce hits :
  encode_utf8 prefix = Ok pb ->
  let decimal := NilZero.string_of_int (Z.to_int nonce) in
  let msg := pb ++ lit decimal in
  let h := hexlify (SHA256.digest msg) in
  message prefix nonce = Ok msg
  /\ option_map Z.of_int (NilZero.int_of_string decimal) = Some nonce
  /\ length h = 64%nat
  /\ Forall is_lower_hex h
  /\ int16 h = Ok (SHA256.be_value (SHA256.digest msg))
  /\ loop_body prefix target nonce hits =
     Ok (if SHA256.be_value (SHA256.digest msg) <? target
         then hits ++ [(nonce, h)] else hits).
Proof.
  intros Hp decimal msg h.
  split; [exact (message_spec prefix pb nonce Hp)|].
  split; [apply decimal_reads_back|].
  split; [apply hexdigest_length|].
  split; [apply hexdigest_lower_hex|].
  split; [apply int16_hexdigest|].
  exact (loop_body_spec prefix pb target nonce hits Hp).
Qed.

Lemma message_and_digest_witness :
  message main_prefix 63 = Ok (lit "jesse63")
  /\ int16 (hexlify (SHA256.digest (lit "jesse63")))
     = Ok (SHA256.be_value (SHA256.digest (lit "jesse63"))).
Proof.
  pose proof (message_and_digest main_prefix (lit "jesse") main_target 63 []
                eq_refl) as H.
  cbv zeta in H. destruct H as (Hm & _ & _ & _ & Hi & _).
  split; [exact Hm | exact Hi].
Defined.

(** C8. For every nonce scanned, reading the hexadecimal text of the
    digest in base 16 gives the big-endian value of the 32 digest bytes, a
    number below 2^256; this is the number the loop compares with the
    target, and writing it back on 32 bytes in hexadecimal gives the same
    text again. *)
Theorem hexdigest_round_trip prefix target nonce hits msg :
  message prefix nonce = Ok msg ->
  let v := SHA256.be_value (SHA256.digest msg) in
  int16 (hexdigest msg) = Ok v
  /\ 0 <= v < 2 ^ 256
  /\ hexlify (SHA256.be_bytes 32 v) = hexdigest msg
  /\ loop_body prefix target nonce hits =
     Ok (if v <? target then hits ++ [(nonce, hexdigest msg)] else hits).
Proof.
  intros Hm v.
  split; [apply int16_hexdigest|].
  split; [apply digest_value_bounds|].
  split.
  - unfold v, hexdigest. rewrite <- (digest_length msg) at 1.
    now rewrite be_bytes_be_value by apply digest_is_byte.
  - unfold loop_body. rewrite Hm. cbn [rbind].
    rewrite int16_hexdigest. cbn [rbind]. fold v. now destruct (v <? target).
Qed.

Lemma hexdigest_round_trip_witness :
  int16 (hexdigest (lit "jesse0")) = Ok (SHA256.be_value (SHA256.digest (lit "jesse0")))
  /\ hexlify (SHA256.be_bytes 32 (SHA256.be_value (SHA256.digest (lit "jesse0"))))
     = hexdigest (lit "jesse0").
Proof.
  pose proof (hexdigest_round_trip main_prefix main_target 0 [] (lit "jesse0")
                eq_refl) as H.
  cbv zeta in H. destruct H as (Hi & _ & Hh & _).
  split; [exact Hi | exact Hh].
Defined.

(** ** The field of width two *)

Lemma format_2d_table :
  forallb (fun n =>
             if list_eq_dec Z.eq_dec (format_2d n)
                  (if n <? 10 then 32 :: str n else str n)
             then (length (format_2d n) =? 2)%nat else false)
          (range 100) = true.
Proof. vm_compute. reflexivity. Qed.

Lemma format_2d_below_100 n :
  0 <= n < 100 ->
  format_2d n = (if n <? 10 then 32 :: str n else str n)
  /\ length (format_2d n) = 2%nat.
Proof.
  intros Hn. pose proof format_2d_table as H.
  rewrite forallb_forall in H. specialize (H n (proj2 (in_range n 100) Hn)).
  cbv beta in H. destruct (list_eq_dec _ _ _) as [E|]; [|discriminate].
  split; [exact E | now apply Nat.eqb_eq].
Qed.

(** ** Monotonicity in the target *)

Lemma filter_length_le {A : Type} (p q : A -> bool) l :
  (forall x, p x = true -> q x = true) ->
  (length (filter p l) <= length (filter q l))%nat.
Proof.
  intros Hpq. induction l as [|x l IH]; cbn [filter]; [lia|].
  destruct (p x) eqn:Hp.
  - rewrite (Hpq x Hp). cbn [length]. lia.
  - destruct (q x); cbn [length]; lia.
Qed.

Lemma spec_hits_length_le pb t1 t2 count :
  t1 <= t2 ->
  (length (spec_hits pb t1 count) <= length (spec_hits pb t2 count))%nat.
Proof.
  intros Ht. unfold spec_hits, spec_hits_of. rewrite !length_map.
  apply filter_length_le. intros n. unfold spec_is_hit.
  rewrite !Z.ltb_lt. lia.
Qed.

(** Without UTF-8 bytes for the prefix the first pass raises, whatever the
    target. *)
Lemma scan_unencodable prefix target count e :
  encode_utf8 prefix = Err e ->
  scan prefix target count = if 0 <? count then Err e else Ok [].
Proof.
  intros Hp. destruct (Z.ltb_spec 0 count) as [Hc|Hc].
  - unfold scan, range.
    destruct (Z.to_nat count) as [|k] eqn:Hk; [lia|].
    cbn [seq map for_loop]. now rewrite (loop_body_err prefix target _ _ e Hp).
  - now apply scan_empty.
Qed.

(** C5. For every prefix and count, and targets t1 <= t2: both scans
    return, and the one with target t1 has at most as many hits as the one
    with target t2; or (a prefix without UTF-8 encoding) both raise the same
    exception. *)
Theorem hit_count_monotone prefix count t1 t2 :
  t1 <= t2 ->
  (exists hits1 hits2,
      scan prefix t1 count = Ok hits1
      /\ scan prefix t2 count = Ok hits2
      /\ (length hits1 <= length hits2)%nat)
  \/ (exists e,
      encode_utf8 prefix = Err e
      /\ scan prefix t1 count = Err e
      /\ scan prefix t2 count = Err e).
Proof.
  intros Ht. destruct (encode_utf8 prefix) as [pb|e] eqn:Hp.
  - left. exists (spec_hits pb t1 count), (spec_hits pb t2 count).
    split; [now apply scan_spec|]. split; [now apply scan_spec|].
    now apply spec_hits_length_le.
  - rewrite !(scan_unencodable prefix _ count e Hp).
    destruct (0 <? count).
    + right. exists e. auto.
    + left. exists [], []. auto.
Qed.

Lemma hit_count_monotone_witness :
  exists hits1 hits2,
    scan main_prefix (2 ^ 250) 64 = Ok hits1
    /\ scan main_prefix main_target 64 = Ok hits2
    /\ (length hits1 <= length hits2)%nat.
Proof.
  destruct (hit_count_monotone main_prefix 64 (2 ^ 250) main_target)
    as [H | (e & He & _)].
  - vm_compute. discriminate.
  - exact H.
  - discriminate He.
Defined.

(** ** Termination *)

(** C9. The loop always terminates.  For every prefix, target and count
    there is a complete run, it ends in the configuration that [scan]
    computes, and no run, complete or not, is longer than count + 1 steps.
    When the prefix has UTF-8 bytes the run takes exactly one step per nonce
    and one to leave the loop: 64 passes through the body for the script. *)
Theorem loop_terminates prefix target count :
  (exists n,
      (1 <= n <= S (Z.to_nat count))%nat
      /\ steps prefix target count n initial (config_of (scan prefix target count))
      /\ final (config_of (scan prefix target count)))
  /\ (forall n c,
        steps prefix target count n initial c -> (n <= S (Z.to_nat count))%nat)
  /\ (forall pb,
        encode_utf8 prefix = Ok pb ->
        steps prefix target count (S (Z.to_nat count)) initial
              (Finished (spec_hits pb target count))
        /\ (forall i, processed prefix target count i <-> 0 <= i < count)).
Proof.
  split; [|split].
  - destruct (run_reaches_scan prefix target count) as (n & Hn & Hrun & _).
    exists n. split; [exact Hn|]. split; [exact Hrun | apply config_of_final].
  - apply run_bounded.
  - intros pb Hp. split; [now apply run_finishes | now apply processed_iff with pb].
Qed.

Lemma loop_terminates_witness :
  steps main_prefix main_target 64 65 initial
        (Finished (spec_hits main_prefix main_target 64))
  /\ (65 <= S (Z.to_nat 64))%nat.
Proof.
  destruct (loop_terminates main_prefix main_target 64) as (_ & Hbound & Hrun).
  destruct (Hrun main_prefix eq_refl) as [R _].
  split; [exact R | exact (Hbound _ _ R)].
Defined.

(** ** The target of the script as a test on the digest text *)

Lemma be_value_cons b bs :
  SHA256.be_value (b :: bs)
  = b * 256 ^ Z.of_nat (length bs) + SHA256.be_value bs.
Proof.
  unfold SHA256.be_value. cbn [fold_left].
  assert (G : forall l acc,
             fold_left (fun a x => 256 * a + x) l acc
             = acc * 256 ^ Z.of_nat (length l)
               + fold_left (fun a x => 256 * a + x) l 0).
  { induction l as [|x l IH]; intros acc; cbn [fold_left length].
    - cbn. lia.
    - rewrite (IH (256 * acc + x)), (IH (256 * 0 + x)).
      rewrite Nat2Z.inj_succ, Z.pow_succ_r by lia. ring. }
  rewrite G. replace (256 * 0 + b) with b by lia. reflexivity.
Qed.

Lemma hex_char_zero d : 0 <= d < 16 -> (hex_char d = 48 <-> d = 0).
Proof. intros Hd. unfold hex_char. destruct (Z.ltb_spec d 10); lia. Qed.

Lemma target_hex_bytes : hexlify target_bytes = target_hex.
Proof. reflexivity. Qed.

Lemma target_value : SHA256.be_value target_bytes = main_target.
Proof. reflexivity. Qed.

(** A 32-byte string has the text of the target exactly when it has its
    value. *)
Lemma hexlify_is_target bs :
  length bs = 32%nat -> Forall is_byte bs ->
  (hexlify bs = target_hex <-> SHA256.be_value bs = main_target).
Proof.
  intros Hlen Hb. split.
  - intros E.
    assert (Hne : bs <> []) by (intros ->; discriminate).
    pose proof (int16_hexlify bs Hb Hne) as Hi.
    rewrite E, int16_target_hex in Hi. congruence.
  - intros E. rewrite <- target_hex_bytes. f_equal.
    apply be_value_inj.
    + rewrite Hlen. reflexivity.
    + exact Hb.
    + unfold target_bytes. constructor; [unfold is_byte; lia|].
      apply Forall_forall. intros x Hx. apply repeat_spec in Hx as ->.
      unfold is_byte. lia.
    + rewrite target_value. exact E.
Qed.

Lemma below_target_iff bs :
  length bs = 32%nat -> Forall is_byte bs ->
  (SHA256.be_value bs <? main_target) = leading_zero_test (hexlify bs).
Proof.
  intros Hlen Hb. pose proof (hexlify_is_target bs Hlen Hb) as Htxt.
  unfold leading_zero_test.
  destruct bs as [|b rest]; [discriminate|].
  injection Hlen as Hlen. inversion Hb as [|? ? Hbyte Hrest]; subst.
  pose proof (be_value_bounds rest Hrest) as Hr. rewrite Hlen in Hr.
  rewrite be_value_cons, Hlen in *.
  destruct (nibbles b Hbyte) as [Hhi _].
  pose proof (hex_char_zero (b / 16) Hhi) as Hz.
  assert (Hdiv : b / 16 = 0 <-> b < 16).
  { unfold is_byte in Hbyte. pose proof (Z.div_mod b 16).
    pose proof (Z.mod_pos_bound b 16). lia. }
  cbn [hexlify flat_map hex_byte app hd] in *. fold (hexlify rest) in *.
  assert (HT : main_target = 16 * 256 ^ Z.of_nat 31 - 1) by reflexivity.
  set (P := 256 ^ Z.of_nat 31) in *.
  set (v := SHA256.be_value rest) in *.
  destruct (list_eq_dec Z.eq_dec _ target_hex) as [E|E].
  - rewrite Bool.andb_false_r. apply Z.ltb_ge. apply Htxt in E. lia.
  - rewrite Bool.andb_true_r.
    assert (Hv : b * P + v <> main_target) by (intros Hv; apply E, Htxt, Hv).
    destruct (Z.eqb_spec (hex_char (b / 16)) 48) as [H48|H48].
    + apply Z.ltb_lt. unfold is_byte in Hbyte. nia.
    + apply Z.ltb_ge. unfold is_byte in Hbyte. nia.
Qed.

(** C10. With the target of the script, whose text reads as 2^252 - 1, a
    pass of the loop records a hit exactly when the digest text begins with
    the character 0 and is not the text of the target. *)
Theorem target_is_leading_zero_test prefix nonce hits msg :
  message prefix nonce = Ok msg ->
  int16 target_hex = Ok main_target
  /\ (SHA256.be_value (SHA256.digest msg) < main_target <->
      hd 0 (hexdigest msg) = 48 /\ hexdigest msg <> target_hex)
  /\ loop_body prefix main_target nonce hits =
     Ok (if leading_zero_test (hexdigest msg)
         then hits ++ [(nonce, hexdigest msg)] else hits).
Proof.
  intros Hm.
  pose proof (below_target_iff (SHA256.digest msg) (digest_length msg)
                (digest_is_byte msg)) as Hlt.
  fold (hexdigest msg) in Hlt.
  split; [exact int16_target_hex|]. split.
  - rewrite <- Z.ltb_lt, Hlt. unfold leading_zero_test.
    rewrite Bool.andb_true_iff, Z.eqb_eq.
    destruct (list_eq_dec Z.eq_dec (hexdigest msg) target_hex); intuition congruence.
  - unfold loop_body. rewrite Hm. cbn [rbind].
    rewrite int16_hexdigest. cbn [rbind]. rewrite Hlt.
    now destruct (leading_zero_test _).
Qed.

Lemma target_is_leading_zero_test_witness :
  loop_body main_prefix main_target 1 [] =
  Ok (if leading_zero_test (hexdigest (lit "jesse1"))
      then [] ++ [(1, hexdigest (lit "jesse1"))] else []).
Proof.
  apply (target_is_leading_zero_test main_prefix 1 [] (lit "jesse1")).
  reflexivity.
Defined.

(** * Further properties of the script *)

(** ** Hits, targets and ranges *)

Lemma filter_filter_weaker {A : Type} (p q : A -> bool) l :
  (forall x, p x = true -> q x = true) ->
  filter p (filter q l) = filter p l.
Proof.
  intros Hpq. induction l as [|x l IH]; [reflexivity|]. cbn [filter].
  destruct (q x) eqn:Hq; cbn [filter].
  - destruct (p x); now rewrite IH.
  - destruct (p x) eqn:Hp; [|exact IH]. rewrite (Hpq x Hp) in Hq. discriminate.
Qed.

Lemma hit_below_spec pb target n :
  hit_below target (n, spec_digest_hex pb n) = spec_is_hit pb target n.
Proof.
  unfold hit_below, spec_digest_hex, spec_is_hit, spec_digest. cbn [snd].
  fold (hexdigest (spec_message pb n)). now rewrite int16_hexdigest.
Qed.

(** X1. Lowering the target only removes hits: the hits for a target t1 are
    the hits for any larger target t2, filtered, in the same order, by
    reading the text of each recorded digest in base 16 and comparing it
    with t1.  No digest has to be computed again. *)
Theorem lower_target_filters_hits prefix pb count t1 t2 :
  encode_utf8 prefix = Ok pb ->
  t1 <= t2 ->
  exists hits1 hits2,
    scan prefix t1 count = Ok hits1
    /\ scan prefix t2 count = Ok hits2
    /\ hits1 = filter (hit_below t1) hits2.
Proof.
  intros Hp Ht.
  exists (spec_hits pb t1 count), (spec_hits pb t2 count).
  split; [now apply scan_spec|]. split; [now apply scan_spec|].
  unfold spec_hits, spec_hits_of. rewrite filter_map_swap.
  rewrite (filter_ext _ (spec_is_hit pb t1) (hit_below_spec pb t1)).
  rewrite filter_filter_weaker; [reflexivity|].
  intros n. unfold spec_is_hit. rewrite !Z.ltb_lt. lia.
Qed.

Lemma lower_target_filters_hits_witness :
  exists hits1 hits2,
    scan main_prefix (2 ^ 250) 64 = Ok hits1
    /\ scan main_prefix main_target 64 = Ok hits2
    /\ hits1 = filter (hit_below (2 ^ 250)) hits2.
Proof.
  apply (lower_target_filters_hits main_prefix main_prefix 64 (2 ^ 250) main_target).
  - reflexivity.
  - vm_compute. discriminate.
Defined.

Lemma range_length count : length (range count) = Z.to_nat count.
Proof. unfold range. now rewrite length_map, length_seq. Qed.

(** X2. The number of hits never exceeds the number of nonces tried.  A
    target of zero or less gives no hit at all, since a digest is never
    negative; a target of 2^256 or more makes every nonce of the range a
    hit, since every digest is below 2^256. *)
Theorem hits_at_extreme_targets prefix pb target count :
  encode_utf8 prefix = Ok pb ->
  exists hits,
    scan prefix target count = Ok hits
    /\ (length hits <= Z.to_nat count)%nat
    /\ (target <= 0 -> hits = [])
    /\ (2 ^ 256 <= target -> map fst hits = range count).
Proof.
  intros Hp. exists (spec_hits pb target count).
  split; [now apply scan_spec|].
  unfold spec_hits. split; [|split].
  - unfold spec_hits_of. rewrite length_map, <- range_length.
    pose proof (filter_length (spec_is_hit pb target) (range count)). lia.
  - intros Ht. unfold spec_hits_of.
    rewrite (filter_ext _ (fun _ => false)), filter_false; [reflexivity|].
    intros n. unfold spec_is_hit, spec_digest. apply Z.ltb_ge.
    pose proof (digest_value_bounds (spec_message pb n)). lia.
  - intros Ht. rewrite spec_hits_nonces.
    rewrite (filter_ext _ (fun _ => true)), filter_true; [reflexivity|].
    intros n. unfold spec_is_hit, spec_digest. apply Z.ltb_lt.
    pose proof (digest_value_bounds (spec_message pb n)). lia.
Qed.

Lemma hits_at_extreme_targets_witness :
  exists hits,
    scan main_prefix (2 ^ 256) 64 = Ok hits
    /\ (length hits <= Z.to_nat 64)%nat
    /\ (2 ^ 256 <= 0 -> hits = [])
    /\ (2 ^ 256 <= 2 ^ 256 -> map fst hits = range 64).
Proof.
  apply (hits_at_extreme_targets main_prefix main_prefix (2 ^ 256) 64).
  reflexivity.
Defined.

Lemma range_split c1 c2 :
  c1 <= c2 ->
  range c2 = range c1
             ++ map Z.of_nat (seq (Z.to_nat c1) (Z.to_nat c2 - Z.to_nat c1)).
Proof.
  intros H. unfold range. rewrite <- map_app, <- seq_app.
  do 2 f_equal. lia.
Qed.

(** X3. Extending the range keeps the hits found so far: the hits for a
    count c2 are the hits for any smaller count c1, unchanged and in front,
    followed by hits whose nonces all lie in c1 .. c2-1. *)
Theorem longer_range_appends_hits prefix pb target c1 c2 :
  encode_utf8 prefix = Ok pb ->
  c1 <= c2 ->
  exists hits1 more,
    scan prefix target c1 = Ok hits1
    /\ scan prefix target c2 = Ok (hits1 ++ more)
    /\ Forall (fun h => c1 <= fst h < c2) more.
Proof.
  intros Hp Hc.
  exists (spec_hits pb target c1),
         (spec_hits_of pb target
            (map Z.of_nat (seq (Z.to_nat c1) (Z.to_nat c2 - Z.to_nat c1)))).
  split; [now apply scan_spec|]. split.
  - rewrite (scan_spec prefix pb target c2 Hp). f_equal.
    unfold spec_hits, spec_hits_of.
    rewrite (range_split c1 c2) by lia.
    now rewrite filter_app, map_app.
  - apply Forall_forall. intros [n h] Hin. cbn [fst].
    unfold spec_hits_of in Hin. apply in_map_iff in Hin as (m & E & Hm).
    injection E as -> _. apply filter_In in Hm as [Hm _].
    apply in_map_iff in Hm as (k & <- & Hk). apply in_seq in Hk. lia.
Qed.

Lemma longer_range_appends_hits_witness :
  exists hits1 more,
    scan main_prefix main_target 4 = Ok hits1
    /\ scan main_prefix main_target 64 = Ok (hits1 ++ more)
    /\ Forall (fun h => 4 <= fst h < 64) more.
Proof.
  apply (longer_range_appends_hits main_prefix main_prefix main_target 4 64).
  - reflexivity.
  - lia.
Defined.

(** ** The loop and the list it builds *)

Lemma loop_body_appends prefix target nonce hits hits' :
  loop_body prefix target nonce hits = Ok hits' ->
  exists new,
    hits' = hits ++ new
    /\ forall other, loop_body prefix target nonce other = Ok (other ++ new).
Proof.
  unfold loop_body. destruct (message prefix nonce) as [msg|e]; [|discriminate].
  cbn [rbind]. destruct (int16 (hexdigest msg)) as [v|e]; [|discriminate].
  cbn [rbind]. destruct (v <? target); intros [= <-].
  - exists [(nonce, hexdigest msg)]. split; reflexivity.
  - exists []. split; [now rewrite app_nil_r|].
    intros other. now rewrite app_nil_r.
Qed.

(** X5. The loop only ever appends to [hits]: whatever list it starts
    from, the list it returns is that list, untouched, followed by the hits
    found, and these are the same hits as when it starts from the empty
    list. *)
Theorem for_loop_only_appends prefix target nonces hits hits' :
  for_loop prefix target nonces hits = Ok hits' ->
  exists new,
    hits' = hits ++ new
    /\ for_loop prefix target nonces [] = Ok new.
Proof.
  revert hits hits'.
  assert (G : forall hits hits',
             for_loop prefix target nonces hits = Ok hits' ->
             exists new, hits' = hits ++ new
                         /\ forall other,
                              for_loop prefix target nonces other
                              = Ok (other ++ new)).
  { induction nonces as [|n nonces IH]; intros hits hits' H.
    - injection H as <-. exists []. split; [now rewrite app_nil_r|].
      intros other. cbn. now rewrite app_nil_r.
    - cbn [for_loop] in H.
      destruct (loop_body prefix target n hits) as [mid|e] eqn:Hb;
        [|discriminate].
      cbn [rbind] in H.
      destruct (loop_body_appends _ _ _ _ _ Hb) as (new1 & -> & Hany).
      destruct (IH _ _ H) as (new2 & -> & Hrest).
      exists (new1 ++ new2). split; [now rewrite app_assoc|].
      intros other. cbn [for_loop]. rewrite Hany. cbn [rbind].
      rewrite Hrest. now rewrite app_assoc. }
  intros hits hits' H. destruct (G hits hits' H) as (new & E & Hany).
  exists new. split; [exact E | exact (Hany [])].
Qed.

Lemma for_loop_only_appends_witness :
  exists new,
    [(7, lit "kept")] ++ spec_hits_of main_prefix main_target [0; 1; 2]
    = [(7, lit "kept")] ++ new
    /\ for_loop main_prefix main_target [0; 1; 2] [] = Ok new.
Proof.
  apply (for_loop_only_appends main_prefix main_target [0; 1; 2]
           [(7, lit "kept")]).
  apply (for_loop_spec main_prefix main_prefix). reflexivity.
Defined.

(** ** Exceptions and output *)

Lemma utf8_char_err c e :
  utf8_char c = Err e ->
  e = UnicodeEncodeError c
  /\ (is_surrogate c = true \/ c < 0 \/ 0x10FFFF < c).
Proof.
  unfold utf8_char.
  destruct (Z.leb_spec 0 c), (Z.ltb_spec c 0x80); cbn [andb];
    try discriminate;
  destruct (Z.leb_spec 0x80 c), (Z.ltb_spec c 0x800); cbn [andb];
    try discriminate;
  destruct (Z.leb_spec 0x800 c), (Z.ltb_spec c 0x10000); cbn [andb];
    try (destruct (is_surrogate c) eqn:Hs; [|discriminate]);
    try (destruct (Z.leb_spec 0x10000 c), (Z.leb_spec c 0x10FFFF); cbn [andb];
         try discriminate);
    intros [= <-]; (split; [reflexivity|]); auto; lia.
Qed.

Lemma encode_utf8_err s e :
  encode_utf8 s = Err e -> exists c, In c s /\ utf8_char c = Err e.
Proof.
  induction s as [|c s IH]; [discriminate|]. cbn [encode_utf8].
  destruct (utf8_char c) as [b|e'] eqn:Hc; cbn [rbind].
  - destruct (encode_utf8 s) as [bs|e']; cbn [rbind]; [discriminate|].
    intros [= <-]. destruct (IH eq_refl) as (c' & Hin & Hc').
    exists c'. split; [now right | exact Hc'].
  - intros [= <-]. exists c. split; [now left | exact Hc].
Qed.

Lemma scan_err_inv prefix target count e :
  scan prefix target count = Err e ->
  0 < count
  /\ encode_utf8 prefix = Err e
  /\ exists c,
       In c prefix
       /\ e = UnicodeEncodeError c
       /\ (is_surrogate c = true \/ c < 0 \/ 0x10FFFF < c).
Proof.
  intros H. destruct (encode_utf8 prefix) as [pb|e'] eqn:Hp.
  - rewrite (scan_spec prefix pb target count Hp) in H. discriminate.
  - rewrite (scan_unencodable prefix target count e' Hp) in H.
    destruct (Z.ltb_spec 0 count); [|discriminate].
    injection H as ->. split; [assumption|]. split; [reflexivity|].
    destruct (encode_utf8_err prefix e Hp) as (c & Hin & Hc).
    destruct (utf8_char_err c e Hc) as [-> Hwhy].
    exists c. auto.
Qed.

(** X6. The only exception the loop can raise is the UnicodeEncodeError of
    [encode] on a character of the prefix that has no UTF-8 encoding (a
    surrogate); it is raised in the first pass, so only when the count is
    positive.  The call of [int] inside the loop never raises. *)
Theorem scan_raises_only_encode_errors prefix target count e :
  scan prefix target count = Err e ->
  0 < count
  /\ encode_utf8 prefix = Err e
  /\ exists c,
       In c prefix
       /\ e = UnicodeEncodeError c
       /\ (is_surrogate c = true \/ c < 0 \/ 0x10FFFF < c).
Proof. apply scan_err_inv. Qed.

Lemma scan_raises_only_encode_errors_witness :
  0 < 64
  /\ encode_utf8 (lit "ab" ++ [0xD800]) = Err (UnicodeEncodeError 0xD800)
  /\ exists c,
       In c (lit "ab" ++ [0xD800])
       /\ UnicodeEncodeError 0xD800 = UnicodeEncodeError c
       /\ (is_surrogate c = true \/ c < 0 \/ 0x10FFFF < c).
Proof.
  apply (scan_raises_only_encode_errors (lit "ab" ++ [0xD800]) main_target 64).
  reflexivity.
Defined.

(** ** Messages and lines *)

Lemma lit_inj s1 s2 : lit s1 = lit s2 -> s1 = s2.
Proof.
  revert s2. induction s1 as [|a s1 IH]; intros [|b s2]; try discriminate.
  - reflexivity.
  - rewrite !lit_cons. intros [= Hab Hs]. apply N2Z.inj in Hab.
    f_equal; [|now apply IH].
    rewrite <- (ascii_N_embedding a), <- (ascii_N_embedding b). now f_equal.
Qed.

Lemma str_inj n1 n2 : str n1 = str n2 -> n1 = n2.
Proof.
  intros H. apply lit_inj in H.
  pose proof (decimal_reads_back n1) as H1.
  pose proof (decimal_reads_back n2) as H2.
  rewrite H in H1. congruence.
Qed.

(** X8. Distinct nonces are hashed as distinct messages: if the messages
    built for two nonces under the same prefix are the same bytes, the
    nonces are equal. *)
Theorem distinct_nonces_distinct_messages prefix n1 n2 msg :
  message prefix n1 = Ok msg ->
  message prefix n2 = Ok msg ->
  n1 = n2.
Proof.
  intros H1 H2. destruct (encode_utf8 prefix) as [pb|e] eqn:Hp.
  - rewrite (message_spec prefix pb n1 Hp) in H1.
    rewrite (message_spec prefix pb n2 Hp) in H2.
    injection H1 as <-. injection H2 as H2. unfold spec_message in H2.
    apply app_inv_head in H2. symmetry. now apply str_inj.
  - unfold message in H1.
    rewrite (encode_utf8_app_err prefix (str n1) e Hp) in H1. discriminate.
Qed.

Lemma distinct_nonces_distinct_messages_witness : 12 = 12.
Proof.
  apply (distinct_nonces_distinct_messages main_prefix 12 12 (lit "jesse12"));
    reflexivity.
Defined.

Lemma str_chars n :
  str n <> [] /\ Forall (fun c => 48 <= c <= 57 \/ c = 45) (str n).
Proof.
  assert (Hd : forall d,
             Forall (fun c => 48 <= c <= 57 \/ c = 45)
                    (lit (NilEmpty.string_of_uint d))).
  { intros d. eapply Forall_impl; [|apply lit_uint_digits]. cbn beta. lia. }
  assert (Hu : forall d,
             lit (NilZero.string_of_uint d) <> []
             /\ Forall (fun c => 48 <= c <= 57 \/ c = 45)
                       (lit (NilZero.string_of_uint d))).
  { intros d. destruct d; (split; [discriminate|]); try apply Hd.
    constructor; [cbn; lia | constructor]. }
  unfold str. destruct (Z.to_int n) as [d|d]; cbn [NilZero.string_of_int].
  - apply Hu.
  - rewrite lit_cons. split; [discriminate|].
    constructor; [right; reflexivity | apply Hu].
Qed.

Lemma repeat_space_inj k1 : forall k2 s1 s2,
  hd 32 s1 <> 32 -> hd 32 s2 <> 32 ->
  repeat 32 k1 ++ s1 = repeat 32 k2 ++ s2 -> s1 = s2.
Proof.
  induction k1 as [|k1 IH]; intros [|k2] s1 s2 H1 H2 E; cbn [repeat app] in E.
  - exact E.
  - subst s1. cbn in H1. congruence.
  - subst s2. cbn in H2. congruence.
  - injection E as E. now apply IH with k2.
Qed.

Lemma format_2d_inj n1 n2 : format_2d n1 = format_2d n2 -> n1 = n2.
Proof.
  unfold format_2d. intros E. apply str_inj.
  assert (Hhd : forall n, hd 32 (str n) <> 32).
  { intros n. destruct (str_chars n) as [Hne Hall].
    destruct (str n) as [|c rest]; [congruence|].
    inversion Hall; subst. cbn. lia. }
  eapply repeat_space_inj; [apply Hhd | apply Hhd | exact E].
Qed.

Lemma app_same_length_tail {A : Type} (l1 : list A) : forall l2 r1 r2,
  length r1 = length r2 -> l1 ++ r1 = l2 ++ r2 -> l1 = l2 /\ r1 = r2.
Proof.
  induction l1 as [|x l1 IH]; intros [|y l2] r1 r2 Hlen E; cbn [app] in E.
  - auto.
  - exfalso. subst r1. cbn [length] in Hlen. rewrite length_app in Hlen. lia.
  - exfalso. subst r2. cbn [length] in Hlen. rewrite length_app in Hlen. lia.
  - injection E as -> E. destruct (IH l2 r1 r2 Hlen E) as [-> ->]. auto.
Qed.

(** X9. A hit line can be read back: two hits whose digests have the same
    number of characters (64 in the script) and which are printed as the
    same line have the same nonce and the same digest. *)
Theorem hit_line_inj n1 h1 n2 h2 :
  length h1 = length h2 ->
  hit_line (n1, h1) = hit_line (n2, h2) ->
  n1 = n2 /\ h1 = h2.
Proof.
  unfold hit_line. cbn [fst snd]. intros Hlen E.
  apply app_inv_head in E. rewrite !app_assoc in E.
  apply app_same_length_tail in E as [E ->]; [|exact Hlen].
  apply app_inv_tail in E. split; [now apply format_2d_inj | reflexivity].
Qed.

Lemma hit_line_inj_witness : 3 = 3 /\ lit "ab" = lit "ab".
Proof.
  apply (hit_line_inj 3 (lit "ab") 3 (lit "ab")); reflexivity.
Defined.

(** ** The bytes that are hashed *)

Lemma lor_marker_table :
  forallb (fun x => Z.lor 0x80 x =? 0x80 + x) (range 64)
  && forallb (fun x => Z.lor 0xC0 x =? 0xC0 + x) (range 32)
  && forallb (fun x => Z.lor 0xE0 x =? 0xE0 + x) (range 16)
  && forallb (fun x => Z.lor 0xF0 x =? 0xF0 + x) (range 8) = true.
Proof. vm_compute. reflexivity. Qed.

Lemma lor_marker x :
  (0 <= x < 64 -> Z.lor 0x80 x = 0x80 + x)
  /\ (0 <= x < 32 -> Z.lor 0xC0 x = 0xC0 + x)
  /\ (0 <= x < 16 -> Z.lor 0xE0 x = 0xE0 + x)
  /\ (0 <= x < 8 -> Z.lor 0xF0 x = 0xF0 + x).
Proof.
  pose proof lor_marker_table as T.
  rewrite !Bool.andb_true_iff, !forallb_forall in T.
  destruct T as [[[T1 T2] T3] T4].
  repeat split; intros Hx; apply Z.eqb_eq;
    [apply T1 | apply T2 | apply T3 | apply T4]; now apply in_range.
Qed.

Lemma lor_80 x : 0 <= x < 64 -> Z.lor 0x80 x = 0x80 + x.
Proof. apply lor_marker. Qed.

Lemma lor_C0 x : 0 <= x < 32 -> Z.lor 0xC0 x = 0xC0 + x.
Proof. apply lor_marker. Qed.

Lemma lor_E0 x : 0 <= x < 16 -> Z.lor 0xE0 x = 0xE0 + x.
Proof. apply lor_marker. Qed.

Lemma lor_F0 x : 0 <= x < 8 -> Z.lor 0xF0 x = 0xF0 + x.
Proof. apply lor_marker. Qed.

Lemma land_6_bits x : 0 <= x -> Z.land x 0x3F = x mod 64.
Proof.
  intros Hx. change 0x3F with (Z.ones 6). now rewrite Z.land_ones by lia.
Qed.

Ltac range_of T :=
  apply andb_prop in T as [?Hlo ?Hhi];
  first [apply Z.leb_le in Hlo | apply Z.ltb_lt in Hlo];
  first [apply Z.leb_le in Hhi | apply Z.ltb_lt in Hhi].

Ltac by_div := Z.div_mod_to_equations; lia.

Lemma Ok_inj {A : Type} (a b : A) : Ok a = Ok b -> a = b.
Proof. congruence. Qed.

(** The four shapes of an encoded code point, in arithmetic. *)
Lemma utf8_char_ok c b :
  utf8_char c = Ok b ->
  (0 <= c < 0x80 /\ b = [c])
  \/ (0x80 <= c < 0x800 /\ b = [0xC0 + c / 64; 0x80 + c mod 64])
  \/ (0x800 <= c < 0x10000 /\ is_surrogate c = false
      /\ b = [0xE0 + c / 4096; 0x80 + (c / 64) mod 64; 0x80 + c mod 64])
  \/ (0x10000 <= c <= 0x10FFFF
      /\ b = [0xF0 + c / 262144; 0x80 + (c / 4096) mod 64;
              0x80 + (c / 64) mod 64; 0x80 + c mod 64]).
Proof.
  assert (S6 : Z.shiftr c 6 = c / 64) by now rewrite Z.shiftr_div_pow2.
  assert (S12 : Z.shiftr c 12 = c / 4096) by now rewrite Z.shiftr_div_pow2.
  assert (S18 : Z.shiftr c 18 = c / 262144) by now rewrite Z.shiftr_div_pow2.
  unfold utf8_char. rewrite S6, S12, S18.
  destruct ((0 <=? c) && (c <? 0x80)) eqn:T1.
  { range_of T1. intros H; apply Ok_inj in H; subst b. left. split; [lia | reflexivity]. }
  destruct ((0x80 <=? c) && (c <? 0x800)) eqn:T2.
  { range_of T2. intros H; apply Ok_inj in H; subst b. right. left. split; [lia|].
    rewrite land_6_bits by lia.
    rewrite lor_C0 by by_div. rewrite lor_80 by by_div. reflexivity. }
  destruct ((0x800 <=? c) && (c <? 0x10000)) eqn:T3.
  { range_of T3. destruct (is_surrogate c); [discriminate|].
    intros H; apply Ok_inj in H; subst b. right. right. left.
    split; [lia|]. split; [reflexivity|].
    rewrite !land_6_bits by by_div.
    rewrite lor_E0 by by_div. rewrite !lor_80 by by_div. reflexivity. }
  destruct ((0x10000 <=? c) && (c <=? 0x10FFFF)) eqn:T4; [|discriminate].
  range_of T4. intros H; apply Ok_inj in H; subst b. right. right. right. split; [lia|].
  rewrite !land_6_bits by by_div.
  rewrite lor_F0 by by_div. rewrite !lor_80 by by_div. reflexivity.
Qed.

Lemma utf8_char_bytes c b :
  utf8_char c = Ok b ->
  Forall is_byte b /\ (1 <= length b <= 4)%nat.
Proof.
  intros H. unfold is_byte.
  destruct (utf8_char_ok c b H)
    as [(R & ->)|[(R & ->)|[(R & _ & ->)|(R & ->)]]];
    (split; [repeat constructor; by_div | cbn [length]; lia]).
Qed.

Lemma encode_utf8_bytes s : forall b,
  encode_utf8 s = Ok b ->
  Forall is_byte b /\ (length s <= length b <= 4 * length s)%nat.
Proof.
  induction s as [|c s IH]; intros b H.
  - injection H as <-. split; [constructor | cbn; lia].
  - cbn [encode_utf8] in H.
    destruct (utf8_char c) as [bc|e] eqn:Hc; [|discriminate]. cbn [rbind] in H.
    destruct (encode_utf8 s) as [bs|e]; [|discriminate]. cbn [rbind] in H.
    apply Ok_inj in H. subst b.
    destruct (utf8_char_bytes c bc Hc) as [Hb Hl].
    destruct (IH bs eq_refl) as [Hbs Hls].
    split; [now apply Forall_app|]. rewrite length_app. cbn [length]. lia.
Qed.

Lemma cons_inj {A : Type} (x y : A) l m : x :: l = y :: m -> x = y /\ l = m.
Proof. intros [= -> ->]. auto. Qed.

Ltac uncons E :=
  repeat (apply cons_inj in E; destruct E as [? E]).

(** No encoding of a code point is the beginning of the encoding of
    another one. *)
Lemma utf8_char_inj c1 c2 b1 b2 r1 r2 :
  utf8_char c1 = Ok b1 -> utf8_char c2 = Ok b2 ->
  b1 ++ r1 = b2 ++ r2 -> c1 = c2 /\ r1 = r2.
Proof.
  intros H1 H2 E.
  destruct (utf8_char_ok c1 b1 H1)
    as [(R1 & ->)|[(R1 & ->)|[(R1 & _ & ->)|(R1 & ->)]]];
  destruct (utf8_char_ok c2 b2 H2)
    as [(R2 & ->)|[(R2 & ->)|[(R2 & _ & ->)|(R2 & ->)]]];
  cbn [app] in E; uncons E;
  first [ split; [by_div | exact E] | exfalso; by_div ].
Qed.

Lemma encode_utf8_inj s1 : forall s2 b,
  encode_utf8 s1 = Ok b -> encode_utf8 s2 = Ok b -> s1 = s2.
Proof.
  induction s1 as [|c1 s1 IH]; intros [|c2 s2] b H1 H2.
  - reflexivity.
  - exfalso. injection H1 as <-. cbn [encode_utf8] in H2.
    destruct (utf8_char c2) as [bc|e] eqn:Hc; [|discriminate]. cbn [rbind] in H2.
    destruct (encode_utf8 s2) as [bs|e]; [|discriminate]. cbn [rbind] in H2.
    apply Ok_inj in H2. destruct (utf8_char_bytes c2 bc Hc) as [_ Hl].
    destruct bc; [cbn in Hl; lia | discriminate].
  - exfalso. injection H2 as <-. cbn [encode_utf8] in H1.
    destruct (utf8_char c1) as [bc|e] eqn:Hc; [|discriminate]. cbn [rbind] in H1.
    destruct (encode_utf8 s1) as [bs|e]; [|discriminate]. cbn [rbind] in H1.
    apply Ok_inj in H1. destruct (utf8_char_bytes c1 bc Hc) as [_ Hl].
    destruct bc; [cbn in Hl; lia | discriminate].
  - cbn [encode_utf8] in H1, H2.
    destruct (utf8_char c1) as [bc1|e] eqn:Hc1; [|discriminate].
    destruct (utf8_char c2) as [bc2|e] eqn:Hc2; [|discriminate].
    cbn [rbind] in H1, H2.
    destruct (encode_utf8 s1) as [bs1|e] eqn:Hs1; [|discriminate].
    destruct (encode_utf8 s2) as [bs2|e] eqn:Hs2; [|discriminate].
    cbn [rbind] in H1, H2. apply Ok_inj in H1, H2. subst b.
    destruct (utf8_char_inj c1 c2 bc1 bc2 bs1 bs2 Hc1 Hc2 (eq_sym H2)) as [-> ->].
    f_equal. now apply IH with bs2.
Qed.

(** X11. What is handed to SHA-256 is a byte string: every element of a
    message lies in 0..255, and the message has one to four bytes for each
    character of the prefix, followed by one byte for each decimal
    character of the nonce. *)
Theorem message_is_bytes prefix nonce msg :
  message prefix nonce = Ok msg ->
  Forall is_byte msg
  /\ (length prefix + length (str nonce) <= length msg
      <= 4 * length prefix + length (str nonce))%nat
  /\ skipn (length msg - length (str nonce)) msg = str nonce.
Proof.
  intros H. destruct (encode_utf8 prefix) as [pb|e] eqn:Hp.
  - rewrite (message_spec prefix pb nonce Hp) in H. apply Ok_inj in H. subst msg.
    destruct (encode_utf8_bytes prefix pb Hp) as [Hb Hl].
    unfold spec_message. split; [|split].
    + apply Forall_app. split; [exact Hb|].
      eapply Forall_impl; [|apply str_ascii]. unfold is_ascii, is_byte. lia.
    + rewrite length_app. lia.
    + rewrite length_app, Nat.add_sub, skipn_app, Nat.sub_diag.
      now rewrite skipn_all, skipn_O.
  - unfold message in H.
    rewrite (encode_utf8_app_err prefix (str nonce) e Hp) in H. discriminate.
Qed.

Lemma message_is_bytes_witness :
  Forall is_byte (lit "jesse63")
  /\ (length main_prefix + length (str 63) <= length (lit "jesse63")
      <= 4 * length main_prefix + length (str 63))%nat
  /\ skipn (length (lit "jesse63") - length (str 63)) (lit "jesse63") = str 63.
Proof.
  apply (message_is_bytes main_prefix 63 (lit "jesse63")). reflexivity.
Defined.

(** X12. Distinct prefixes are hashed as distinct messages: if two
    prefixes give the same bytes for the same nonce, they are the same
    string.  (UTF-8 is read back without ambiguity.) *)
Theorem distinct_prefixes_distinct_messages prefix1 prefix2 nonce msg :
  message prefix1 nonce = Ok msg ->
  message prefix2 nonce = Ok msg ->
  prefix1 = prefix2.
Proof.
  unfold message. intros H1 H2.
  pose proof (encode_utf8_inj _ _ _ H1 H2) as E.
  now apply app_inv_tail in E.
Qed.

Lemma distinct_prefixes_distinct_messages_witness :
  [0xE9; 0x1F600] = [0xE9; 0x1F600].
Proof.
  apply (distinct_prefixes_distinct_messages
           [0xE9; 0x1F600] [0xE9; 0x1F600] 5
           [0xC3; 0xA9; 0xF0; 0x9F; 0x98; 0x80; 53]);
    reflexivity.
Defined.

(** ** Comparing digests as text *)

Lemma hex_char_order d1 d2 :
  0 <= d1 < 16 -> 0 <= d2 < 16 ->
  (hex_char d1 <? hex_char d2) = (d1 <? d2)
  /\ (hex_char d1 =? hex_char d2) = (d1 =? d2).
Proof.
  intros H1 H2. unfold hex_char.
  destruct (Z.ltb_spec d1 10), (Z.ltb_spec d2 10);
    split;
    repeat match goal with
    | |- context [?a <? ?b] => destruct (Z.ltb_spec a b)
    | |- context [?a =? ?b] => destruct (Z.eqb_spec a b)
    end; try reflexivity; lia.
Qed.

Lemma str_lt_hexlify bs1 : forall bs2,
  length bs1 = length bs2 -> Forall is_byte bs1 -> Forall is_byte bs2 ->
  str_lt (hexlify bs1) (hexlify bs2)
  = (SHA256.be_value bs1 <? SHA256.be_value bs2).
Proof.
  induction bs1 as [|b1 r1 IH]; intros [|b2 r2] Hlen H1 H2;
    try discriminate; [reflexivity|].
  injection Hlen as Hlen.
  inversion H1 as [|? ? Hb1 Hr1]; inversion H2 as [|? ? Hb2 Hr2]; subst.
  rewrite !be_value_cons, <- Hlen.
  pose proof (be_value_bounds r1 Hr1) as V1.
  pose proof (be_value_bounds r2 Hr2) as V2. rewrite <- Hlen in V2.
  specialize (IH r2 Hlen Hr1 Hr2).
  destruct (nibbles b1 Hb1) as [Hh1 Hl1], (nibbles b2 Hb2) as [Hh2 Hl2].
  cbn [hexlify flat_map hex_byte app str_lt]. fold (hexlify r1) (hexlify r2).
  destruct (hex_char_order _ _ Hh1 Hh2) as [-> ->].
  destruct (hex_char_order _ _ Hl1 Hl2) as [-> ->].
  rewrite IH.
  set (P := 256 ^ Z.of_nat (length r1)) in *.
  set (v1 := SHA256.be_value r1) in *. set (v2 := SHA256.be_value r2) in *.
  pose proof (Z.div_mod b1 16 ltac:(lia)) as D1.
  pose proof (Z.div_mod b2 16 ltac:(lia)) as D2.
  set (q1 := b1 / 16) in *. set (m1 := b1 mod 16) in *.
  set (q2 := b2 / 16) in *. set (m2 := b2 mod 16) in *.
  destruct (Z.ltb_spec q1 q2), (Z.eqb_spec q1 q2),
           (Z.ltb_spec m1 m2), (Z.eqb_spec m1 m2),
           (Z.ltb_spec v1 v2); cbn [andb orb]; try lia;
    symmetry; first [apply Z.ltb_lt | apply Z.ltb_ge]; nia.
Qed.

(** X13. The integer comparison of the loop is the comparison of texts:
    for a target that fits 32 bytes, a nonce is recorded exactly when the
    text of its digest comes before the 64-character lowercase hexadecimal
    text of the target in the order of strings. *)
Theorem comparison_is_text_order prefix nonce hits msg tb :
  message prefix nonce = Ok msg ->
  length tb = 32%nat ->
  Forall is_byte tb ->
  loop_body prefix (SHA256.be_value tb) nonce hits
  = Ok (if str_lt (hexdigest msg) (hexlify tb)
        then hits ++ [(nonce, hexdigest msg)] else hits).
Proof.
  intros Hm Hlen Hb. unfold loop_body. rewrite Hm. cbn [rbind].
  rewrite int16_hexdigest. cbn [rbind].
  unfold hexdigest at 2.
  rewrite (str_lt_hexlify (SHA256.digest msg) tb)
    by (rewrite ?digest_length; auto using digest_is_byte).
  now destruct (_ <? _).
Qed.

Lemma comparison_is_text_order_witness :
  loop_body main_prefix (SHA256.be_value target_bytes) 2 []
  = Ok (if str_lt (hexdigest (lit "jesse2")) (hexlify target_bytes)
        then [] ++ [(2, hexdigest (lit "jesse2"))] else []).
Proof.
  apply (comparison_is_text_order main_prefix 2 [] (lit "jesse2") target_bytes).
  - reflexivity.
  - reflexivity.
  - unfold target_bytes. constructor; [unfold is_byte; lia|].
    apply Forall_forall. intros x Hx. apply repeat_spec in Hx as ->.
    unfold is_byte. lia.
Defined.

(** ** Padding *)

Lemma be_value_be_bytes n : forall x,
  SHA256.be_value (SHA256.be_bytes n x) = x mod 256 ^ Z.of_nat n.
Proof.
  induction n as [|n IH]; intros x.
  - cbn. now rewrite Z.mod_1_r.
  - rewrite be_bytes_snoc, be_value_snoc, IH.
    rewrite Z.shiftr_div_pow2 by lia. change (2 ^ 8) with 256.
    rewrite Nat2Z.inj_succ, Z.pow_succ_r by lia.
    rewrite Z.rem_mul_r by lia. lia.
Qed.

(** X14. The padding of SHA-256 leaves the message in front, puts the
    byte 0x80 right behind it and the bit length of the message, on 64 bits,
    in the last 8 bytes, and fills the message up to a whole number of
    64-byte blocks, as few as possible: the blocks that are compressed cover
    the padded message exactly.  A message of at most 55 bytes, like every
    message of the script, takes a single block. *)
Theorem sha256_padding msg :
  let len := Z.of_nat (length msg) in
  let padded := SHA256.pad msg in
  Z.of_nat (length padded) = 64 * ((len + 8) / 64 + 1)
  /\ (length padded / 64 * 64 = length padded)%nat
  /\ firstn (length msg) padded = msg
  /\ nth (length msg) padded 0 = 0x80
  /\ SHA256.be_value (skipn (length padded - 8) padded) = (8 * len) mod 2 ^ 64
  /\ (len <= 55 -> length padded = 64%nat)
  /\ (Forall is_byte msg -> Forall is_byte padded).
Proof.
  intros len padded.
  assert (Hlen : length padded
                 = (length msg + 1 + Z.to_nat ((55 - len) mod 64) + 8)%nat).
  { unfold padded, SHA256.pad. fold len.
    rewrite !length_app, repeat_length, be_bytes_length. cbn [length]. lia. }
  assert (HZ : Z.of_nat (length padded) = 64 * ((len + 8) / 64 + 1)).
  { rewrite Hlen. unfold len. by_div. }
  split; [exact HZ|]. split; [|split; [|split; [|split; [|split]]]].
  - assert (E : length padded = (Z.to_nat ((len + 8) / 64 + 1) * 64)%nat).
    { unfold len in *. by_div. }
    rewrite E. now rewrite Nat.div_mul by lia.
  - unfold padded, SHA256.pad.
    rewrite firstn_app, Nat.sub_diag, firstn_all. cbn [firstn].
    now rewrite app_nil_r.
  - unfold padded, SHA256.pad. cbn [app]. apply nth_middle.
  - replace (length padded - 8)%nat
      with (length (msg ++ [0x80] ++ repeat 0 (Z.to_nat ((55 - len) mod 64)))).
    + unfold padded, SHA256.pad. fold len.
      rewrite !app_assoc, skipn_app, Nat.sub_diag, skipn_all. cbn [skipn app].
      rewrite be_value_be_bytes. change (256 ^ Z.of_nat 8) with (2 ^ 64).
      apply Z.mod_mod. lia.
    + rewrite Hlen, !length_app, repeat_length. cbn [length]. lia.
  - intros Hsmall. unfold len in *. by_div.
  - intros Hb. unfold padded, SHA256.pad.
    apply Forall_app. split; [exact Hb|].
    constructor; [unfold is_byte; lia|].
    apply Forall_app. split; [|apply be_bytes_is_byte].
    apply Forall_forall. intros x Hx. apply repeat_spec in Hx as ->.
    unfold is_byte. lia.
Qed.

Lemma sha256_padding_witness :
  length (SHA256.pad (lit "jesse63")) = 64%nat
  /\ Forall is_byte (SHA256.pad (lit "jesse63")).
Proof.
  destruct (sha256_padding (lit "jesse63"))
    as (_ & _ & _ & _ & _ & Hone & Hbytes).
  split.
  - apply Hone. cbn. lia.
  - apply Hbytes. apply Forall_forall. intros x Hx. unfold is_byte.
    cbn in Hx. repeat (destruct Hx as [<-|Hx]; [lia|]). destruct Hx.
Defined.

(** * The script as a whole *)

(** ** Printing *)

Lemma unencodable_none enc text :
  unencodable enc text = None <-> forallb enc text = true.
Proof.
  unfold unencodable. induction text as [|c text IH]; cbn [find forallb].
  - tauto.
  - destruct (enc c); cbn [negb andb]; [exact IH|]. split; discriminate.
Qed.

Lemma unencodable_some enc text c :
  unencodable enc text = Some c -> In c text /\ enc c = false.
Proof.
  unfold unencodable. intros H. apply find_some in H as [Hin Hc].
  split; [exact Hin | now destruct (enc c)].
Qed.

Lemma print_hits_printed enc hits : forall out,
  print_hits enc hits out = printed enc (map hit_line hits) out.
Proof.
  induction hits as [|h hits IH]; intros out; cbn [print_hits map printed].
  - reflexivity.
  - unfold io_bind, print. destruct (unencodable enc (hit_line h));
      [reflexivity | apply IH].
Qed.

(** Printing a list of texts stops at the first text that cannot be
    written; the texts before it have been printed. *)
Lemma printed_outcome enc texts : forall out,
  (Forall (fun text => forallb enc text = true) texts
   /\ printed enc texts out = (out ++ texts, Ok tt))
  \/ (exists k c,
        (k < length texts)%nat
        /\ Forall (fun text => forallb enc text = true) (firstn k texts)
        /\ In c (nth k texts [])
        /\ enc c = false
        /\ printed enc texts out
           = (out ++ firstn k texts, Err (UnicodeEncodeError c))).
Proof.
  induction texts as [|text texts IH]; intros out; cbn [printed].
  - left. split; [constructor | now rewrite app_nil_r].
  - destruct (unencodable enc text) as [c|] eqn:Hu.
    + right. exists 0%nat, c.
      destruct (unencodable_some enc text c Hu) as [Hin Hc].
      cbn [length firstn nth]. rewrite app_nil_r.
      split; [lia|]. split; [constructor|]. split; [exact Hin|].
      split; [exact Hc | reflexivity].
    + apply unencodable_none in Hu.
      destruct (IH (out ++ [text])) as [[Hall E]|(k & c & Hk & Hall & Hin & Hc & E)].
      * left. split; [now constructor|]. rewrite <- app_assoc in E. exact E.
      * right. exists (S k), c. cbn [length firstn nth].
        rewrite <- app_assoc in E.
        split; [lia|]. split; [now constructor|]. split; [exact Hin|].
        split; [exact Hc | exact E].
Qed.

Lemma script_prints enc prefix th t count hits :
  int16 th = Ok t -> scan prefix t count = Ok hits ->
  script enc prefix th count [] = printed enc (full_output th hits) [].
Proof.
  intros Ht Hs. unfold script, io_bind, lift, print, full_output.
  rewrite Ht, Hs. cbn [printed].
  destruct (unencodable enc (summary_line th)); [reflexivity|].
  destruct (unencodable enc (hits_line hits)); [reflexivity|].
  apply print_hits_printed.
Qed.

Lemma script_bad_target enc prefix th count e :
  int16 th = Err e ->
  run (script enc prefix th count) = Outcome [] 1 (Some e).
Proof.
  intros H. unfold run, script, io_bind, lift. now rewrite H.
Qed.

Lemma script_scan_raises enc prefix th t count e :
  int16 th = Ok t -> scan prefix t count = Err e ->
  run (script enc prefix th count) = Outcome [] 1 (Some e).
Proof.
  intros Ht Hs. unfold run, script, io_bind, lift. now rewrite Ht, Hs.
Qed.

Lemma script_ok enc prefix th t count hits :
  int16 th = Ok t -> scan prefix t count = Ok hits ->
  Forall (fun text => forallb enc text = true) (full_output th hits) ->
  run (script enc prefix th count) = Outcome (full_output th hits) 0 None.
Proof.
  intros Ht Hs Hall. unfold run. rewrite (script_prints enc _ _ _ _ _ Ht Hs).
  destruct (printed_outcome enc (full_output th hits) [])
    as [[_ E]|(k & c & Hk & Hpre & Hin & Hc & E)].
  - rewrite E. reflexivity.
  - exfalso. rewrite Forall_forall in Hall.
    assert (Hnth : In (nth k (full_output th hits) []) (full_output th hits))
      by (apply nth_In; exact Hk).
    specialize (Hall _ Hnth). rewrite forallb_forall in Hall.
    rewrite (Hall c Hin) in Hc. discriminate.
Qed.

Lemma run_script enc prefix th t count hits :
  int16 th = Ok t -> scan prefix t count = Ok hits ->
  run (script enc prefix th count)
  = match printed enc (full_output th hits) [] with
    | (out, Ok _) => Outcome out 0 None
    | (out, Err e) => Outcome out 1 (Some e)
    end.
Proof.
  intros Ht Hs. unfold run. now rewrite (script_prints enc _ _ _ _ _ Ht Hs).
Qed.

Lemma scan_nonpositive_target prefix pb target count :
  encode_utf8 prefix = Ok pb -> target <= 0 ->
  scan prefix target count = Ok [].
Proof.
  intros Hp Ht. rewrite (scan_spec prefix pb target count Hp). f_equal.
  unfold spec_hits, spec_hits_of.
  rewrite (filter_ext _ (fun _ => false)), filter_false; [reflexivity|].
  intros n. unfold spec_is_hit, spec_digest. apply Z.ltb_ge.
  pose proof (digest_value_bounds (spec_message pb n)). lia.
Qed.

(** What is on standard output is always a beginning of the full output. *)
Lemma script_stdout enc prefix th t count hits :
  int16 th = Ok t -> scan prefix t count = Ok hits ->
  exists k,
    stdout (run (script enc prefix th count)) = firstn k (full_output th hits).
Proof.
  intros Ht Hs. unfold run. rewrite (script_prints enc _ _ _ _ _ Ht Hs).
  destruct (printed_outcome enc (full_output th hits) [])
    as [[_ E]|(k & c & _ & _ & _ & _ & E)]; rewrite E; cbn [stdout app].
  - exists (length (full_output th hits)). now rewrite firstn_all.
  - now exists k.
Qed.

(** ** The characters of the output *)

Lemma plain_no_newline text : forallb plain text = true -> ~ In 10 text.
Proof.
  intros H Hin. rewrite forallb_forall in H. specialize (H 10 Hin).
  discriminate H.
Qed.

Lemma plain_encodable enc text :
  writes_headers enc -> forallb plain text = true -> forallb enc text = true.
Proof.
  intros [Hascii Hremark] H. rewrite forallb_forall in *.
  intros c Hin. specialize (H c Hin). unfold plain in H.
  apply Bool.orb_true_iff in H as [H|H].
  - apply andb_prop in H as [Hlo Hhi].
    apply Z.leb_le in Hlo. apply Z.ltb_lt in Hhi. apply Hascii. lia.
  - apply existsb_exists in H as (r & Hr & E). apply Z.eqb_eq in E. subst r.
    now apply Hremark.
Qed.

Lemma plain_str n : forallb plain (str n) = true.
Proof.
  destruct (str_chars n) as [_ H]. apply forallb_forall. intros c Hin.
  rewrite Forall_forall in H. specialize (H c Hin). unfold plain.
  apply Bool.orb_true_iff. left. apply andb_true_intro.
  split; [apply Z.leb_le | apply Z.ltb_lt]; lia.
Qed.

Lemma plain_lower_hex h : Forall is_lower_hex h -> forallb plain h = true.
Proof.
  intros H. apply forallb_forall. intros c Hin.
  rewrite Forall_forall in H. specialize (H c Hin). unfold is_lower_hex in H.
  unfold plain. apply Bool.orb_true_iff. left. apply andb_true_intro.
  split; [apply Z.leb_le | apply Z.ltb_lt]; lia.
Qed.

Lemma plain_format_2d n : forallb plain (format_2d n) = true.
Proof.
  unfold format_2d. rewrite forallb_app, plain_str, Bool.andb_true_r.
  apply forallb_forall. intros c Hin. apply repeat_spec in Hin as ->.
  reflexivity.
Qed.

Lemma plain_hits_line hits : forallb plain (hits_line hits) = true.
Proof.
  unfold hits_line. rewrite !forallb_app, plain_str. reflexivity.
Qed.

Lemma plain_hit_line n h :
  Forall is_lower_hex h -> forallb plain (hit_line (n, h)) = true.
Proof.
  intros H. unfold hit_line. cbn [fst snd].
  rewrite !forallb_app, plain_format_2d, (plain_lower_hex h H). reflexivity.
Qed.

Lemma plain_summary_line th :
  forallb plain th = true -> forallb plain (summary_line th) = true.
Proof.
  intros H. unfold summary_line. rewrite forallb_app, H. reflexivity.
Qed.

(** Every text of the full output of a scan is made of plain characters,
    when the target text is. *)
Lemma plain_full_output pb th t count :
  forallb plain th = true ->
  Forall (fun text => forallb plain text = true)
         (full_output th (spec_hits pb t count)).
Proof.
  intros Hth. unfold full_output.
  constructor; [now apply plain_summary_line|].
  constructor; [apply plain_hits_line|].
  apply Forall_forall. intros text Hin.
  apply in_map_iff in Hin as ([n h] & <- & Hin).
  apply in_spec_hits in Hin as (_ & -> & _).
  apply plain_hit_line. apply hexdigest_lower_hex.
Qed.

Lemma utf8_writes_headers : writes_headers utf8_codec.
Proof.
  split; [|reflexivity]. intros c Hc. unfold utf8_codec.
  rewrite utf8_char_ascii by (unfold is_ascii; lia). reflexivity.
Qed.

(** ** Lines *)

Lemma split_lines_text text : forall rest line,
  ~ In 10 text ->
  split_lines (text ++ 10 :: rest) line = (line ++ text) :: split_lines rest [].
Proof.
  induction text as [|c text IH]; intros rest line Hno; cbn [app split_lines].
  - now rewrite app_nil_r.
  - destruct (Z.eqb_spec c 10) as [->|Hc]; [exfalso; apply Hno; now left|].
    rewrite IH by (intros Hin; apply Hno; now right).
    now rewrite <- app_assoc.
Qed.

(** Texts without a newline, printed one after the other, are the lines
    of what reaches standard output. *)
Lemma text_lines_entries entries :
  Forall (fun text => ~ In 10 text) entries ->
  text_lines (flat_map (fun text => text ++ [10]) entries) = entries.
Proof.
  unfold text_lines. induction 1 as [|text entries Hno _ IH]; [reflexivity|].
  cbn [flat_map]. rewrite <- app_assoc. cbn [app].
  rewrite split_lines_text by exact Hno. cbn [app]. now rewrite IH.
Qed.

(** ** Errors *)

Lemma ascii_text s :
  forallb (fun c => (0 <=? c) && (c <? 128)) s = true -> Forall is_ascii s.
Proof.
  intros H. apply Forall_forall. intros c Hin.
  rewrite forallb_forall in H. specialize (H c Hin).
  apply andb_prop in H as [Hlo Hhi].
  apply Z.leb_le in Hlo. apply Z.ltb_lt in Hhi. unfold is_ascii. lia.
Qed.

(** The script with the target text "-f": [int] reads it as -15, no digest
    is below it, and the script prints its two header texts and exits with
    status 0. *)
Example signed_target_runs :
  is_hex_string (lit "-f") = false
  /\ int16 (lit "-f") = Ok (-15)
  /\ run (script utf8_codec main_prefix (lit "-f") 64)
     = Outcome [lit "Trials: 64, Target: 0x-f"; hits_line []] 0 None.
Proof.
  split; [reflexivity|]. split; [reflexivity|].
  rewrite (run_script utf8_codec main_prefix (lit "-f") (-15) 64 [] eq_refl)
    by (apply (scan_nonpositive_target main_prefix main_prefix); [reflexivity | lia]).
  vm_compute. reflexivity.
Qed.

(** C3, as the specification words it, fails: the target text "-f" is not
    a hexadecimal string, and no 256-bit unsigned threshold, yet [int]
    accepts it and the script runs to the end with exit status 0. *)
Lemma signed_target_is_accepted : ~ claimed_invalid_input_aborts.
Proof.
  intros H.
  destruct (H utf8_codec main_prefix (lit "-f") 64) as [Hstatus _];
    [left; reflexivity|].
  destruct signed_target_runs as (_ & _ & Hrun).
  apply Hstatus. rewrite Hrun. reflexivity.
Qed.

(** C3, amended.  The script fails on its target exactly when
    [int(target_hex, 16)] rejects the text.  In that case ValueError, naming
    the text, is raised before anything is printed: standard output stays
    empty and the exit status is 1, whatever the prefix, the count and the
    encoding of standard output.  When [int] accepts the text (which may
    carry a sign, a 0x prefix, surrounding white space or single
    underscores), no ValueError is raised. *)
Theorem malformed_target_aborts enc prefix th count :
  Forall is_ascii th ->
  (forall e, int16 th = Err e ->
     e = ValueError th
     /\ run (script enc prefix th count) = Outcome [] 1 (Some (ValueError th)))
  /\ (forall t, int16 th = Ok t ->
        forall text,
          uncaught (run (script enc prefix th count)) <> Some (ValueError text)).
Proof.
  intros _. split.
  - intros e He. pose proof (int16_error th e He) as ->.
    split; [reflexivity | now apply script_bad_target].
  - intros t Ht text.
    destruct (scan prefix t count) as [hits|e] eqn:Hs.
    + unfold run. rewrite (script_prints enc _ _ _ _ _ Ht Hs).
      destruct (printed_outcome enc (full_output th hits) [])
        as [[_ E]|(k & c & _ & _ & _ & _ & E)]; rewrite E; cbn [uncaught];
        discriminate.
    + rewrite (script_scan_raises enc _ _ _ _ _ Ht Hs). cbn [uncaught].
      destruct (scan_err_inv prefix t count e Hs) as (_ & _ & c & _ & -> & _).
      discriminate.
Qed.

Lemma malformed_target_aborts_witness :
  run (script ascii_codec main_prefix (lit "0fffg") 64)
    = Outcome [] 1 (Some (ValueError (lit "0fffg")))
  /\ uncaught (run (script utf8_codec main_prefix (lit " 0X_0f ") 64))
     <> Some (ValueError (lit " 0X_0f ")).
Proof.
  split.
  - apply (proj1 (malformed_target_aborts ascii_codec main_prefix
                    (lit "0fffg") 64 (ascii_text (lit "0fffg") eq_refl))
             (ValueError (lit "0fffg"))).
    reflexivity.
  - apply (proj2 (malformed_target_aborts utf8_codec main_prefix
                    (lit " 0X_0f ") 64 (ascii_text (lit " 0X_0f ") eq_refl)) 15).
    reflexivity.
Defined.

(** ** Output *)


(** The output of the script itself on a UTF-8 standard output, and on an
    ASCII one, where the second [print] raises. *)
Example main_output :
  main utf8_codec = Outcome
    [ lit "Trials: 64, Target: 0x0fffffffffffffffffffffffffffffffffffffffffffffffffffffffffffffff";
      lit "Hits: 6 (" ++ [0x671F; 0x5F85; 0x503C; 0x7D04] ++ lit " 64 * 1/16 = 4)";
      lit "  nonce= 0  hash=0x03cd34bd1813f6c4658024eaa97dd5da854d6e96547f914688fcbe78aca4b5f8";
      lit "  nonce= 2  hash=0x07a17c6abc11dc0ae9e0695b0d6d3f0aecc1899ce18786c1f10d612ff65d40c5";
      lit "  nonce= 3  hash=0x03f751560923b807dec90d1273478e5c79dd2792ab5642e26e74f46d4704bfde";
      lit "  nonce=30  hash=0x0bbc7bd57fb75b8bc5341d502b5fee98670da6e2d2e61979d582f2bbcf2338e0";
      lit "  nonce=47  hash=0x00867f286129a163dda556bfe9b2650e013c8b159f95d2f78298c7c8d480d379";
      lit "  nonce=48  hash=0x0baab60478180b43dcfa47c10c4e9939ca86e8bada147dac55cdb4a41bba337e" ]
    0 None.
Proof.
  unfold main.
  rewrite (run_script utf8_codec _ _ _ _ _ int16_target_hex main_hits).
  vm_compute. reflexivity.
Qed.

Lemma main_third_line :
  nth 2 (stdout (main utf8_codec)) [] =
  lit "  nonce= 0  hash=0x03cd34bd1813f6c4658024eaa97dd5da854d6e96547f914688fcbe78aca4b5f8".
Proof. rewrite main_output. reflexivity. Qed.

Example main_output_ascii :
  main ascii_codec = Outcome
    [ lit "Trials: 64, Target: 0x0fffffffffffffffffffffffffffffffffffffffffffffffffffffffffffffff" ]
    1 (Some (UnicodeEncodeError 0x671F)).
Proof.
  unfold main.
  rewrite (run_script ascii_codec _ _ _ _ _ int16_target_hex main_hits).
  vm_compute. reflexivity.
Qed.

(** C4, as the specification words it, fails on the output of the script:
    its first hit line is "  nonce= 0  hash=0x03cd...", which is not of the
    form "nonce=<int> hash=0x<hex>" for any nonce and digest. *)
Lemma hit_lines_are_indented : ~ claimed_output (stdout (main utf8_codec)).
Proof.
  intros (first & second & hits & E).
  pose proof main_third_line as H. rewrite E in H.
  destruct hits as [|h hits]; cbn in H; discriminate H.
Qed.

(** C4, amended.  On a standard output whose encoding writes printable
    ASCII and the four characters of the remark, the script, with its own
    target, prints exactly these lines and exits with status 0: the line
    "Trials: 64, Target: 0x" followed by the 64 characters of the target;
    the line "Hits: <number of hits>" followed by a fixed remark; then one
    line per hit, in the order of the hits: two spaces, "nonce=", the nonce
    right-aligned in two columns, two spaces, "hash=0x" and the 64
    hexadecimal characters of the digest. *)
Theorem script_output enc prefix pb :
  encode_utf8 prefix = Ok pb ->
  writes_headers enc ->
  let hits := spec_hits pb main_target 64 in
  let o := run (script enc prefix target_hex 64) in
  o = Outcome (summary_line target_hex :: hits_line hits :: map hit_line hits)
              0 None
  /\ text_lines (stdout_text o)
     = summary_line target_hex :: hits_line hits :: map hit_line hits
  /\ summary_line target_hex
     = lit "Trials: 64, Target: 0x0fffffffffffffffffffffffffffffffffffffffffffffffffffffffffffffff"
  /\ hits_line hits
     = lit "Hits: " ++ str (Z.of_nat (length hits)) ++ lit " ("
       ++ remark_chars ++ lit " 64 * 1/16 = 4)"
  /\ (forall n h, In (n, h) hits ->
        hit_line (n, h)
        = lit "  nonce=" ++ (if n <? 10 then 32 :: str n else str n)
            ++ lit "  hash=0x" ++ h
        /\ length h = 64%nat
        /\ Forall is_lower_hex h).
Proof.
  intros Hp Henc hits o.
  pose proof (plain_full_output pb target_hex main_target 64 eq_refl) as Hplain.
  fold hits in Hplain.
  assert (Ho : o = Outcome (full_output target_hex hits) 0 None).
  { apply (script_ok enc prefix target_hex main_target 64 hits
             int16_target_hex (scan_spec prefix pb main_target 64 Hp)).
    eapply Forall_impl; [|exact Hplain]. intros text. now apply plain_encodable. }
  split; [exact Ho|]. split.
  { unfold stdout_text. rewrite Ho. cbn [stdout].
    apply text_lines_entries.
    eapply Forall_impl; [|exact Hplain]. intros text. apply plain_no_newline. }
  split; [reflexivity|]. split; [reflexivity|].
  intros n h Hin. apply in_spec_hits in Hin as (Hn & -> & _).
  split; [|split].
  - unfold hit_line. cbn [fst snd].
    destruct (format_2d_below_100 n) as [-> _]; [lia | reflexivity].
  - apply hexdigest_length.
  - apply hexdigest_lower_hex.
Qed.

Lemma script_output_witness :
  run (script utf8_codec main_prefix target_hex 64)
  = Outcome (summary_line target_hex
             :: hits_line (spec_hits main_prefix main_target 64)
             :: map hit_line (spec_hits main_prefix main_target 64)) 0 None.
Proof.
  apply (script_output utf8_codec main_prefix main_prefix).
  - reflexivity.
  - exact utf8_writes_headers.
Defined.

(** ** The bounds of the range *)

(** C7. With the bound 64 the loop that the script runs passes through
    the nonces 0 to 63 and no other: its run takes the 64 passes and one
    step to leave, and ends with the list that [scan] returns; in that list
    nonce 0, and likewise nonce 63, is recorded exactly when its digest is
    below the target, and no nonce outside 0..63 is recorded.  With a count
    of 0 the loop is left at once, [scan] returns no hit and raises nothing,
    and the script prints its two header texts, with a hit count of zero,
    and exits with status 0. *)
Theorem range_boundaries prefix pb target :
  encode_utf8 prefix = Ok pb ->
  (exists hits,
      scan prefix target 64 = Ok hits
      /\ steps prefix target 64 65 initial (Finished hits)
      /\ (In (0, spec_digest_hex pb 0) hits <-> spec_digest pb 0 < target)
      /\ (In (63, spec_digest_hex pb 63) hits <-> spec_digest pb 63 < target)
      /\ (forall n h, In (n, h) hits -> 0 <= n <= 63))
  /\ processed prefix target 64 0
  /\ processed prefix target 64 63
  /\ ~ processed prefix target 64 64
  /\ ~ processed prefix target 64 (-1)
  /\ (forall i, processed prefix target 64 i <-> 0 <= i < 64)
  /\ length (range 64) = 64%nat
  /\ hd_error (range 64) = Some 0
  /\ last (range 64) 0 = 63
  /\ scan prefix target 0 = Ok []
  /\ steps prefix target 0 1 initial (Finished [])
  /\ (forall enc,
        writes_headers enc ->
        run (script enc prefix target_hex 0)
        = Outcome [summary_line target_hex; hits_line []] 0 None).
Proof.
  intros Hp.
  pose proof (processed_iff prefix target 64 pb Hp) as P.
  split.
  { exists (spec_hits pb target 64).
    split; [now apply scan_spec|].
    split; [exact (run_finishes prefix target 64 pb Hp)|].
    split; [|split].
    - rewrite in_spec_hits. intuition lia.
    - rewrite in_spec_hits. intuition lia.
    - intros n h Hin. apply in_spec_hits in Hin. lia. }
  split; [apply P; lia|]. split; [apply P; lia|].
  split; [intros H; apply P in H; lia|].
  split; [intros H; apply P in H; lia|].
  split; [exact P|].
  split; [reflexivity|]. split; [reflexivity|]. split; [reflexivity|].
  assert (Hs : forall t, scan prefix t 0 = Ok []) by (intros t; now apply scan_empty).
  split; [apply Hs|].
  split; [econstructor; [apply step_exit; lia | constructor]|].
  intros enc Henc.
  apply (script_ok enc prefix target_hex main_target 0 []
           int16_target_hex (Hs main_target)).
  pose proof (plain_full_output pb target_hex main_target 0 eq_refl) as Hplain.
  eapply Forall_impl; [|exact Hplain]. intros text. now apply plain_encodable.
Qed.

Lemma range_boundaries_witness :
  processed main_prefix main_target 64 0
  /\ processed main_prefix main_target 64 63
  /\ ~ processed main_prefix main_target 64 64
  /\ run (script utf8_codec main_prefix target_hex 0)
     = Outcome [summary_line target_hex; hits_line []] 0 None.
Proof.
  destruct (range_boundaries main_prefix main_prefix main_target eq_refl)
    as (_ & H0 & H63 & H64 & _ & _ & _ & _ & _ & _ & _ & Hrun).
  split; [exact H0|]. split; [exact H63|]. split; [exact H64|].
  apply Hrun. exact utf8_writes_headers.
Defined.

(** ** Failures and partial output *)

(** X7. What the script leaves on standard output.  A target text that
    [int] rejects, or a prefix that [encode] rejects in the first pass of
    the loop, stops the script before anything is printed (exit status 1).
    Otherwise the script prints the summary, the hit count and the hit
    lines, in this order, and exits with status 0 if the encoding of
    standard output can write all of them; if not, it stops at the first
    text the encoding cannot write, with the texts before it printed, the
    exit status 1 and the UnicodeEncodeError of a character of that text. *)
Theorem script_output_or_error enc prefix th count :
  Forall is_ascii th ->
  let o := run (script enc prefix th count) in
  (int16 th = Err (ValueError th)
   /\ o = Outcome [] 1 (Some (ValueError th)))
  \/ (exists t c,
        int16 th = Ok t
        /\ 0 < count
        /\ In c prefix
        /\ scan prefix t count = Err (UnicodeEncodeError c)
        /\ o = Outcome [] 1 (Some (UnicodeEncodeError c)))
  \/ (exists t hits,
        int16 th = Ok t
        /\ scan prefix t count = Ok hits
        /\ ((Forall (fun text => forallb enc text = true) (full_output th hits)
             /\ o = Outcome (full_output th hits) 0 None)
            \/ (exists k c,
                  (k < length (full_output th hits))%nat
                  /\ Forall (fun text => forallb enc text = true)
                            (firstn k (full_output th hits))
                  /\ In c (nth k (full_output th hits) [])
                  /\ enc c = false
                  /\ o = Outcome (firstn k (full_output th hits)) 1
                                 (Some (UnicodeEncodeError c))))).
Proof.
  intros _ o. unfold o. destruct (int16 th) as [t|e] eqn:Ht.
  - destruct (scan prefix t count) as [hits|e] eqn:Hs.
    + right. right. exists t, hits.
      split; [reflexivity|]. split; [exact Hs|].
      unfold run. rewrite (script_prints enc _ _ _ _ _ Ht Hs).
      destruct (printed_outcome enc (full_output th hits) [])
        as [[Hall E]|(k & c & Hk & Hpre & Hin & Hc & E)]; rewrite E.
      * left. split; [exact Hall | reflexivity].
      * right. exists k, c.
        split; [exact Hk|]. split; [exact Hpre|]. split; [exact Hin|].
        split; [exact Hc | reflexivity].
    + right. left.
      destruct (scan_err_inv prefix t count e Hs) as (Hc & _ & c & Hin & -> & _).
      exists t, c. split; [reflexivity|]. split; [exact Hc|].
      split; [exact Hin|]. split; [exact Hs|].
      exact (script_scan_raises enc _ _ _ _ _ Ht Hs).
  - left. pose proof (int16_error th e Ht) as ->.
    split; [reflexivity | now apply script_bad_target].
Qed.

Lemma script_output_or_error_witness :
  let th := target_hex in
  let o := run (script ascii_codec main_prefix th 64) in
  (int16 th = Err (ValueError th)
   /\ o = Outcome [] 1 (Some (ValueError th)))
  \/ (exists t c,
        int16 th = Ok t
        /\ 0 < 64
        /\ In c main_prefix
        /\ scan main_prefix t 64 = Err (UnicodeEncodeError c)
        /\ o = Outcome [] 1 (Some (UnicodeEncodeError c)))
  \/ (exists t hits,
        int16 th = Ok t
        /\ scan main_prefix t 64 = Ok hits
        /\ ((Forall (fun text => forallb ascii_codec text = true)
                    (full_output th hits)
             /\ o = Outcome (full_output th hits) 0 None)
            \/ (exists k c,
                  (k < length (full_output th hits))%nat
                  /\ Forall (fun text => forallb ascii_codec text = true)
                            (firstn k (full_output th hits))
                  /\ In c (nth k (full_output th hits) [])
                  /\ ascii_codec c = false
                  /\ o = Outcome (firstn k (full_output th hits)) 1
                                 (Some (UnicodeEncodeError c))))).
Proof.
  exact (script_output_or_error ascii_codec main_prefix target_hex 64
           (ascii_text target_hex eq_refl)).
Defined.

Lemma in_firstn {A : Type} (x : A) k : forall l, In x (firstn k l) -> In x l.
Proof.
  induction k as [|k IH]; intros [|y l] H; cbn [firstn] in H;
    try contradiction.
  destruct H as [->|H]; [now left | right; now apply IH].
Qed.

(** X10. With a count of at most 100 the hit lines are aligned: every line
    printed after the two header lines has exactly 83 characters. *)
Theorem hit_lines_aligned enc prefix pb th t count :
  encode_utf8 prefix = Ok pb ->
  int16 th = Ok t ->
  count <= 100 ->
  Forall (fun line => length line = 83%nat)
         (skipn 2 (stdout (run (script enc prefix th count)))).
Proof.
  intros Hp Ht Hc.
  destruct (script_stdout enc prefix th t count _ Ht
              (scan_spec prefix pb t count Hp)) as [k ->].
  apply Forall_forall. intros line Hin.
  rewrite skipn_firstn_comm in Hin. apply in_firstn in Hin.
  unfold full_output in Hin. cbn [skipn] in Hin.
  apply in_map_iff in Hin as ([n h] & <- & Hin).
  apply in_spec_hits in Hin as (Hn & -> & _).
  unfold hit_line. cbn [fst snd]. rewrite !length_app.
  destruct (format_2d_below_100 n) as [_ ->]; [lia|].
  unfold spec_digest_hex. fold (hexdigest (spec_message pb n)).
  rewrite hexdigest_length. reflexivity.
Qed.

Lemma hit_lines_aligned_witness :
  Forall (fun line => length line = 83%nat)
         (skipn 2 (stdout (main utf8_codec))).
Proof.
  apply (hit_lines_aligned utf8_codec main_prefix main_prefix target_hex
           main_target 64).
  - reflexivity.
  - vm_compute. reflexivity.
  - lia.
Defined.
